(** * Verification of the XML parser adapters of the vMix companion module

    The development covers the adapters behind the [XmlParserAdapter]
    interface:

    - [src/xml/fxpAdapter.ts]: the fast-xml-parser adapter (module [Fxp])
      and its post-processing pass [normalizeToXml2jsFormat] (module
      [Canon]);
    - the fast-xml-parser adapter without the pass (module [FxpPlain]) and
      the xml2js adapter (module [Xml2js]);
    - [src/xml/rustWasmAdapter.ts]: the dynamically loaded Rust/WASM adapter
      (module [Wasm]).

    The first part holds the definitions, the second part the properties
    (modules [JsFacts], [CanonFacts], [WasmFacts] and [FxpFacts]). *)

From Stdlib Require Import List String Ascii Bool ZArith Lia Arith PeanoNat.
Import ListNotations.
Local Open Scope string_scope.
Local Open Scope list_scope.

(** ** JavaScript values, as the adapters see them *)

Module Js.

(** Primitive values other than [null] and [undefined].  A number is kept as
    an integer code of its binary64 representation: no adapter code inspects
    the numeric value. *)
Inductive scalar : Type :=
| SBool (b : bool)
| SNum (n : Z)
| SStr (s : string).

(** A value is [null], [undefined], a primitive, an array or a plain object.
    An object is the list of its own enumerable properties in the order in
    which [Object.entries] enumerates them; the keys of an object are
    pairwise distinct (see [distinctb]).  An object may have an own property
    named [__proto__]: [JSON.parse] and computed keys create one. *)
#[local] Unset Elimination Schemes.
Inductive value : Type :=
| VNull
| VUndefined
| VScalar (s : scalar)
| VArr (items : list value)
| VObj (entries : list (string * value)).
#[local] Set Elimination Schemes.

(** Induction over values, with the hypotheses for the items of an array and
    for the property values of an object. *)
Section value_induction.
Variable P : value -> Prop.
Hypothesis Hnull : P VNull.
Hypothesis Hundef : P VUndefined.
Hypothesis Hscalar : forall s, P (VScalar s).
Hypothesis Harr : forall items, Forall P items -> P (VArr items).
Hypothesis Hobj :
  forall entries, Forall (fun e => P (snd e)) entries -> P (VObj entries).

Fixpoint value_ind (v : value) : P v :=
  match v with
  | VNull => Hnull
  | VUndefined => Hundef
  | VScalar s => Hscalar s
  | VArr items =>
      Harr items
        ((fix items_ind (l : list value) : Forall P l :=
            match l with
            | [] => Forall_nil P
            | x :: r => Forall_cons x (value_ind x) (items_ind r)
            end) items)
  | VObj entries =>
      Hobj entries
        ((fix entries_ind (l : list (string * value))
            : Forall (fun e => P (snd e)) l :=
            match l with
            | [] => Forall_nil _
            | e :: r =>
                Forall_cons (P := fun e => P (snd e)) e
                  (value_ind (snd e)) (entries_ind r)
            end) entries)
  end.
End value_induction.

(** The result of the [typeof] operator. *)
Inductive js_type : Type :=
| TyUndefined | TyObject | TyBoolean | TyNumber | TyString.

Definition typeof (v : value) : js_type :=
  match v with
  | VUndefined => TyUndefined
  | VNull | VArr _ | VObj _ => TyObject
  | VScalar (SBool _) => TyBoolean
  | VScalar (SNum _) => TyNumber
  | VScalar (SStr _) => TyString
  end.

Definition js_type_eqb (a b : js_type) : bool :=
  match a, b with
  | TyUndefined, TyUndefined | TyObject, TyObject | TyBoolean, TyBoolean
  | TyNumber, TyNumber | TyString, TyString => true
  | _, _ => false
  end.

(** [Array.isArray]. *)
Definition isArray (v : value) : bool :=
  match v with VArr _ => true | _ => false end.

(** [v === null] and [v === undefined]. *)
Definition is_null (v : value) : bool :=
  match v with VNull => true | _ => false end.

Definition is_undefined (v : value) : bool :=
  match v with VUndefined => true | _ => false end.

(** A primitive other than [null] and [undefined]. *)
Definition is_scalar (v : value) : bool :=
  match v with VScalar _ => true | _ => false end.

(** The key whose assignment on a plain object runs the prototype setter of
    [Object.prototype]. *)
Definition proto_key : string := "__proto__".

(** [o[key] = v] where [key] becomes or is an own property: an existing
    property keeps its place and takes the new value, a new property is
    added after the existing ones.  (JavaScript enumerates keys that are
    array indices first; a loop that assigns the entries of an object in
    their enumeration order adds them in that same order, so the rule plays
    no part here.) *)
Fixpoint own_set (key : string) (v : value) (o : list (string * value))
  : list (string * value) :=
  match o with
  | [] => [(key, v)]
  | (k, x) :: rest =>
      if String.eqb k key then (k, v) :: rest
      else (k, x) :: own_set key v rest
  end.

(** Property assignment [o[key] = v] on an object created by [{}].  For the
    key [__proto__] the assignment runs the prototype setter: it creates no
    own property, so the own properties stay as they are.  (It may replace
    the prototype, which is no part of a value here: the adapters read own
    properties only, through [Object.entries], [Array.isArray] and
    [typeof].)  Any other key becomes or is an own property. *)
Definition obj_set (key : string) (v : value) (o : list (string * value))
  : list (string * value) :=
  if String.eqb key proto_key then o else own_set key v o.

(** Property read [o[key]] of an own property. *)
Fixpoint obj_get (key : string) (o : list (string * value)) : option value :=
  match o with
  | [] => None
  | (k, x) :: rest => if String.eqb k key then Some x else obj_get key rest
  end.

Definition keys (o : list (string * value)) : list string := map fst o.

(** Pairwise distinct keys, as a boolean. *)
Fixpoint distinctb (ks : list string) : bool :=
  match ks with
  | [] => true
  | k :: rest => negb (existsb (String.eqb k) rest) && distinctb rest
  end.

(** Keys that are pairwise distinct, as those of every object are, and
    none of which is [__proto__]. *)
Definition plainb (ks : list string) : bool :=
  distinctb ks && negb (existsb (String.eqb proto_key) ks).

(** Shorthands for string and number leaves. *)
Definition str (s : string) : value := VScalar (SStr s).
Definition num (n : Z) : value := VScalar (SNum n).

(** The completion of a synchronous call: a value or an exception, an
    exception being kept by its message. *)
Inductive completion (A : Type) : Type :=
| Returns (a : A)
| Throws (msg : string).
Arguments Returns {A} a.
Arguments Throws {A} msg.

(** The settlement of the promise of an [async] method. *)
Inductive outcome (A : Type) : Type :=
| Resolved (a : A)
| Rejected (msg : string).
Arguments Resolved {A} a.
Arguments Rejected {A} msg.

Definition outcome_map {A B : Type} (f : A -> B) (r : outcome A) : outcome B :=
  match r with
  | Resolved a => Resolved (f a)
  | Rejected e => Rejected e
  end.

(** A loop that assigns, for each entry in turn, a value computed from the
    entry to the entry's own key, starting from the object [acc]. *)
Definition assign_all (member : string -> value -> value)
           (entries acc : list (string * value)) : list (string * value) :=
  fold_left
    (fun normalized e => obj_set (fst e) (member (fst e) (snd e)) normalized)
    entries acc.

(** The entries in their order, each with its computed value. *)
Definition members (member : string -> value -> value)
           (entries : list (string * value)) : list (string * value) :=
  map (fun e => (fst e, member (fst e) (snd e))) entries.

(** The entries other than the one named [__proto__]. *)
Definition drop_proto (entries : list (string * value))
  : list (string * value) :=
  filter (fun e => negb (String.eqb (fst e) proto_key)) entries.

End Js.

(** ** The normalization pass of the fast-xml-parser adapter *)

Module Canon.
Import Js.

(** The attributes key of the xml2js format. *)
Definition attrs_key : string := "$".

(** [normalizeToXml2jsFormat], fxpAdapter.ts lines 26-57.  The loop over
    [Object.entries(obj)] is the left fold that threads the object
    [normalized], which starts empty. *)
Fixpoint normalizeToXml2jsFormat (obj : value) : value :=
  match obj with
  | VNull | VUndefined => obj
  | VArr items => VArr (map normalizeToXml2jsFormat items)
  | VObj entries =>
      VObj
        (fold_left
           (fun normalized (entry : string * value) =>
              let (key, value) := entry in
              if String.eqb key attrs_key then
                obj_set key value normalized
              else
                match value with
                | VArr items =>
                    obj_set key (VArr (map normalizeToXml2jsFormat items))
                      normalized
                | VObj _ =>
                    obj_set key (VArr [normalizeToXml2jsFormat value])
                      normalized
                | VNull | VUndefined | VScalar _ =>
                    obj_set key (VArr [value]) normalized
                end)
           entries [])
  | VScalar _ => VArr [obj]
  end.

(** The value that one turn of the loop stores under [key]: the four
    branches of lines 38-50. *)
Definition normalize_member (key : string) (value : Js.value) : Js.value :=
  if String.eqb key attrs_key then value
  else
    match value with
    | VArr items => VArr (map normalizeToXml2jsFormat items)
    | VObj _ => VArr [normalizeToXml2jsFormat value]
    | VNull | VUndefined | VScalar _ => VArr [value]
    end.

(** [Array.prototype.map] with a callback that may give up. *)
Fixpoint map_option {A B : Type} (f : A -> option B) (l : list A)
  : option (list B) :=
  match l with
  | [] => Some []
  | x :: rest =>
      match f x, map_option f rest with
      | Some y, Some ys => Some (y :: ys)
      | _, _ => None
      end
  end.

(** The same pass with a bound on the depth of the recursion: every
    recursive call spends one unit of [fuel], and the pass gives up with
    [None] when none is left. *)
Fixpoint normalize_fuel (fuel : nat) (obj : value) : option value :=
  match fuel with
  | O => None
  | S fuel' =>
      match obj with
      | VNull | VUndefined => Some obj
      | VArr items => option_map VArr (map_option (normalize_fuel fuel') items)
      | VObj entries =>
          option_map VObj
            (fold_left
               (fun normalized (entry : string * value) =>
                  match normalized with
                  | None => None
                  | Some acc =>
                      let (key, value) := entry in
                      if String.eqb key attrs_key then
                        Some (obj_set key value acc)
                      else
                        match value with
                        | VArr items =>
                            option_map (fun r => obj_set key (VArr r) acc)
                              (map_option (normalize_fuel fuel') items)
                        | VObj _ =>
                            option_map (fun r => obj_set key (VArr [r]) acc)
                              (normalize_fuel fuel' value)
                        | VNull | VUndefined | VScalar _ =>
                            Some (obj_set key (VArr [value]) acc)
                        end
                  end)
               entries (Some []))
      | VScalar _ => Some (VArr [obj])
      end
  end.

(** Height of a tree: the longest chain of nested arrays and objects. *)
Fixpoint depth (v : value) : nat :=
  match v with
  | VArr items => S (list_max (map depth items))
  | VObj entries => S (list_max (map (fun e => depth (snd e)) entries))
  | VNull | VUndefined | VScalar _ => 0
  end.

(** [child x t]: [x] is an item of the array [t] or the value of a property
    of the object [t]. *)
Inductive child : value -> value -> Prop :=
| child_item : forall x items, In x items -> child x (VArr items)
| child_prop : forall k x entries, In (k, x) entries -> child x (VObj entries).

(** Strict subterms: the transitive closure of [child]. *)
Inductive subterm : value -> value -> Prop :=
| subterm_child : forall x t, child x t -> subterm x t
| subterm_trans : forall x y t, subterm x y -> child y t -> subterm x t.

(** The arguments of the recursive calls that one activation of
    [normalizeToXml2jsFormat] makes (lines 32, 43 and 46). *)
Definition recursive_calls (obj : value) : list value :=
  match obj with
  | VArr items => items
  | VObj entries =>
      flat_map
        (fun entry : string * value =>
           let (key, value) := entry in
           if String.eqb key attrs_key then []
           else
             match value with
             | VArr items => items
             | VObj _ => [value]
             | VNull | VUndefined | VScalar _ => []
             end)
        entries
  | VNull | VUndefined | VScalar _ => []
  end.

(** *** Shapes of trees *)

(** The canonical shape.  The element nodes of a tree are its root and the
    nodes reached from it through array items and through the values of
    keys other than ["$"]; the value under ["$"] is the attribute record of
    its element.  A tree is canonical when, in every element node that is an
    object, every key other than ["$"] holds an array. *)
Fixpoint is_canonical (v : value) : bool :=
  match v with
  | VArr items => forallb is_canonical items
  | VObj entries =>
      forallb
        (fun entry : string * value =>
           let (key, value) := entry in
           if String.eqb key attrs_key then true
           else
             match value with
             | VArr items => forallb is_canonical items
             | _ => false
             end)
        entries
  | VNull | VUndefined | VScalar _ => true
  end.

(** [element_node n t]: [n] is an element node of the tree [t]. *)
Inductive element_node : value -> value -> Prop :=
| element_root : forall t, element_node t t
| element_item : forall x items t,
    element_node (VArr items) t -> In x items -> element_node x t
| element_member : forall key x entries t,
    element_node (VObj entries) t -> In (key, x) entries ->
    key <> attrs_key -> element_node x t.

(** No primitive value outside attribute records. *)
Fixpoint scalar_free (v : value) : bool :=
  match v with
  | VScalar _ => false
  | VArr items => forallb scalar_free items
  | VObj entries =>
      forallb
        (fun entry : string * value =>
           let (key, value) := entry in
           if String.eqb key attrs_key then true else scalar_free value)
        entries
  | VNull | VUndefined => true
  end.

(** The keys of the object itself are plain: pairwise distinct, as those of
    every JavaScript object, and none of them [__proto__]. *)
Definition own_keys_plain (v : value) : bool :=
  match v with
  | VObj entries => plainb (keys entries)
  | _ => true
  end.

(** The same for every object that the pass visits: the element nodes. *)
Fixpoint plain_keys (v : value) : bool :=
  match v with
  | VArr items => forallb plain_keys items
  | VObj entries =>
      plainb (keys entries)
      && forallb
           (fun entry : string * value =>
              let (key, value) := entry in
              if String.eqb key attrs_key then true else plain_keys value)
           entries
  | VNull | VUndefined | VScalar _ => true
  end.

(** Every object of the tree, at every depth and inside attribute records
    too, holds an array under each of its keys other than ["$"]. *)
Fixpoint every_map_sequenced (v : value) : bool :=
  match v with
  | VArr items => forallb every_map_sequenced items
  | VObj entries =>
      forallb
        (fun entry : string * value =>
           let (key, value) := entry in
           (if String.eqb key attrs_key then true else isArray value)
           && every_map_sequenced value)
        entries
  | VNull | VUndefined | VScalar _ => true
  end.

(** *** The pass as section 4.2 of the specification words it *)

(** Null or absent: unchanged.  Sequence: each element normalized, in order.
    Mapping: the attributes key keeps its value; any other key holds, for a
    sequence, the sequence of its normalized elements; for a non-scalar
    value, the one-element sequence of the normalized value; for a scalar,
    the one-element sequence of the scalar.  Top-level scalar: the
    one-element sequence of the scalar. *)
Fixpoint spec_normalize (t : value) : value :=
  match t with
  | VNull | VUndefined => t
  | VArr items => VArr (map spec_normalize items)
  | VObj entries =>
      VObj
        (map
           (fun entry : string * value =>
              let (key, value) := entry in
              (key,
               if String.eqb key attrs_key then value
               else
                 match value with
                 | VArr items => VArr (map spec_normalize items)
                 | VScalar _ => VArr [value]
                 | VObj _ | VNull | VUndefined => VArr [spec_normalize value]
                 end))
           entries)
  | VScalar _ => VArr [t]
  end.

(** *** Content of trees *)

(** The leaves of a tree, from left to right: its [null]s, [undefined]s and
    primitives, those of attribute records included. *)
Fixpoint leaves (v : value) : list value :=
  match v with
  | VArr items => flat_map leaves items
  | VObj entries => flat_map (fun e => leaves (snd e)) entries
  | VNull | VUndefined | VScalar _ => [v]
  end.

(** Text stands alone: among the element nodes, an array that holds a
    primitive holds nothing else. *)
Fixpoint text_alone (v : value) : bool :=
  match v with
  | VArr items =>
      (negb (existsb is_scalar items) || (List.length items =? 1)%nat)
      && forallb text_alone items
  | VObj entries =>
      forallb
        (fun entry : string * value =>
           let (key, value) := entry in
           if String.eqb key attrs_key then true else text_alone value)
        entries
  | VNull | VUndefined | VScalar _ => true
  end.

(** *** Sample trees *)

(** A tree as fast-xml-parser hands it over: single children collapsed,
    repeated ones in an array, text as scalars. *)
Definition sample_parsed_tree : value :=
  VObj [("vmix",
         VObj [("version", str "27");
               ("inputs",
                VObj [("input",
                       VArr [VObj [("$", VObj [("key", str "1")]);
                                   ("title", str "Cam1")];
                             VObj [("$", VObj [("key", str "2")]);
                                   ("title", str "Cam2")]])]);
               ("preview", num 1)])].

(** A tree whose elements carry attributes only. *)
Definition sample_attribute_tree : value :=
  VObj [("vmix",
         VObj [("inputs",
                VObj [("input",
                       VArr [VObj [("$", VObj [("key", str "1");
                                                ("number", num 1)])];
                             VObj [("$", VObj [("key", str "2");
                                                ("number", num 2)])]])]);
               ("overlays", VNull)])].

(** An element with an attribute record and no child. *)
Definition sample_attribute_element : value :=
  VObj [("input", VObj [("$", VObj [("key", str "1")])])].

(** An object with an own property named [__proto__], as
    [JSON.parse('{"a":"x","__proto__":{"k":"v"},"b":"y"}')] returns it. *)
Definition sample_proto_tree : value :=
  VObj [("a", str "x"); ("__proto__", VObj [("k", str "v")]);
        ("b", str "y")].

End Canon.

(** ** The adapters over the parser libraries *)

(** The fast-xml-parser library: an [XMLParser] is built from its options;
    its [parse] method is the library's and is a parameter here. *)
Module FastXmlParserLib.
Import Js.

Record parser_options : Type := {
  ignoreAttributes : bool;
  allowBooleanAttributes : bool;
  parseAttributeValue : bool;
  trimValues : bool
}.

Record XMLParser : Type := { options : parser_options }.

Definition parse_method : Type := XMLParser -> string -> completion value.

End FastXmlParserLib.

(** [src/xml/fxpAdapter.ts]: the adapter that runs the normalization pass. *)
Module Fxp.
Import Js FastXmlParserLib.

Record FastXmlParserAdapter : Type := { parser : XMLParser }.

(** Lines 7-14. *)
Definition constructor : FastXmlParserAdapter :=
  {| parser :=
       {| options :=
            {| ignoreAttributes := false;
               allowBooleanAttributes := true;
               parseAttributeValue := true;
               trimValues := false |} |} |}.

(** Lines 16-21.  An exception of the library rejects the promise of the
    [async] method. *)
Definition parse (lib_parse : parse_method) (this : FastXmlParserAdapter)
           (xml : string) : outcome value :=
  match lib_parse this.(parser) xml with
  | Returns result => Resolved (Canon.normalizeToXml2jsFormat result)
  | Throws e => Rejected e
  end.

End Fxp.

(** The version of the same adapter that returns the library's tree as it
    is. *)
Module FxpPlain.
Import Js FastXmlParserLib.

Record FastXmlParserAdapter : Type := { parser : XMLParser }.

Definition constructor : FastXmlParserAdapter :=
  {| parser :=
       {| options :=
            {| ignoreAttributes := false;
               allowBooleanAttributes := true;
               parseAttributeValue := true;
               trimValues := false |} |} |}.

Definition parse (lib_parse : parse_method) (this : FastXmlParserAdapter)
           (xml : string) : outcome value :=
  match lib_parse this.(parser) xml with
  | Returns result => Resolved result
  | Throws e => Rejected e
  end.

End FxpPlain.

(** The xml2js adapter: the module-level parser and the delegating
    [parse]. *)
Module Xml2js.
Import Js.

Inductive processor : Type := parseBooleans.

Record options : Type := {
  tagNameProcessors : list processor;
  attrNameProcessors : list processor;
  valueProcessors : list processor;
  attrValueProcessors : list processor
}.

Definition parserOptions : options :=
  {| tagNameProcessors := [];
     attrNameProcessors := [];
     valueProcessors := [parseBooleans];
     attrValueProcessors := [parseBooleans] |}.

(** The library's [parseStringPromise], a parameter. *)
Definition parse_method : Type := options -> string -> outcome value.

Definition parse (parseStringPromise : parse_method) (xml : string)
  : outcome value :=
  parseStringPromise parserOptions xml.

End Xml2js.

(** ** The dynamically loaded Rust/WASM adapter *)

Module Wasm.
Import Js.

(** What a call of the module's [default] export (the WASM initializer)
    does: throw at once, or hand back a value whose [await] later resumes
    normally or with a rejection. *)
Inductive init_behaviour : Type :=
| InitThrows (msg : string)
| InitResolves
| InitRejects (msg : string).

(** A loaded module, as far as the adapter looks at it: [mod_default] and
    [mod_parse] are [Some] when [typeof] of the export is ['function']. *)
Record wasm_module : Type := {
  mod_default : option init_behaviour;
  mod_parse : option (string -> completion value)
}.

(** The host of the adapter: [__dirname], [process.cwd()], [path.join] and
    [require].  [require] throws or returns the exports of the module,
    [None] standing for exports that are falsy. *)
Record host : Type := {
  dirname : string;
  cwd : string;
  path_join : string -> string -> string;
  require : string -> completion (option wasm_module)
}.

(** The state of a promise of [loadWasm]. *)
Inductive promise_state : Type :=
| Pending
| Fulfilled
| Failed (msg : string).

(** A call of [parse]: suspended at [await this.loadPromise] on promise [p],
    or finished with the settlement of its own promise. *)
Inductive call_status : Type :=
| Awaiting (p : nat)
| Settled (r : outcome value).

Record parse_call : Type := {
  call_xml : string;
  call_status_of : call_status
}.

(** The adapter object with the promises and calls that exist around it.
    [loads] holds one promise per invocation of [loadWasm], [probes] the
    arguments of the [require] calls made so far, in order. *)
Record adapter : Type := {
  wasm : option wasm_module;
  loadPromise : option nat;
  loads : list promise_state;
  probes : list string;
  calls : list parse_call
}.

Definition set_wasm (m : option wasm_module) (a : adapter) : adapter :=
  {| wasm := m; loadPromise := loadPromise a; loads := loads a;
     probes := probes a; calls := calls a |}.

Definition set_loadPromise (p : option nat) (a : adapter) : adapter :=
  {| wasm := wasm a; loadPromise := p; loads := loads a;
     probes := probes a; calls := calls a |}.

Definition set_loads (l : list promise_state) (a : adapter) : adapter :=
  {| wasm := wasm a; loadPromise := loadPromise a; loads := l;
     probes := probes a; calls := calls a |}.

Definition set_probes (l : list string) (a : adapter) : adapter :=
  {| wasm := wasm a; loadPromise := loadPromise a; loads := loads a;
     probes := l; calls := calls a |}.

Definition set_calls (l : list parse_call) (a : adapter) : adapter :=
  {| wasm := wasm a; loadPromise := loadPromise a; loads := loads a;
     probes := probes a; calls := l |}.

Fixpoint update_nth {A : Type} (n : nat) (x : A) (l : list A) {struct l}
  : list A :=
  match l, n with
  | [], _ => []
  | _ :: rest, O => x :: rest
  | y :: rest, S n' => y :: update_nth n' x rest
  end.

(** The three module locations, in the order of lines 24, 32 and 38. *)
Definition production_path (h : host) : string :=
  path_join h (dirname h) "../bench/wasm/pkg/vmix_xml.js".

Definition development_path (h : host) : string :=
  path_join h (cwd h) "src/bench/wasm/pkg/vmix_xml.js".

Definition sibling_path : string := "./vmix_xml_wasm".

Definition candidates (h : host) : list string :=
  [production_path h; development_path h; sibling_path].

(** [this.wasm = require(p)]: the call is recorded; the field is assigned
    only when [require] returns. *)
Definition assign_require (h : host) (p : string) (a : adapter)
  : adapter * completion unit :=
  let a' := set_probes (probes a ++ [p]) a in
  match require h p with
  | Returns m => (set_wasm m a', Returns tt)
  | Throws e => (a', Throws e)
  end.

(** The nested [try]/[catch] of lines 21-40. *)
Definition probe (h : host) (a : adapter) : adapter * completion unit :=
  match assign_require h (production_path h) a with
  | (a1, Returns _) => (a1, Returns tt)
  | (a1, Throws _) =>
      match assign_require h (development_path h) a1 with
      | (a2, Returns _) => (a2, Returns tt)
      | (a2, Throws _) => assign_require h sibling_path a2
      end
  end.

Definition load_error (msg : string) : string :=
  "Failed to load Rust WASM module: " ++ msg.

Definition no_parse_error : string :=
  "Rust WASM module does not export parse function".

Definition not_available_error : string :=
  "Rust WASM module is not available".

(** Lines 50-52: the check that ends [loadWasm]. *)
Definition check_parse (a : adapter) : promise_state :=
  match wasm a with
  | Some m =>
      match mod_parse m with
      | Some _ => Fulfilled
      | None => Failed no_parse_error
      end
  | None => Failed no_parse_error
  end.

(** [loadWasm] from its start to its first [await] or to its end: the state
    of the adapter and of the promise that the call returns. *)
Definition loadWasm_run (h : host) (a : adapter) : adapter * promise_state :=
  match wasm a with
  | Some _ => (a, Fulfilled)
  | None =>
      match probe h a with
      | (a1, Throws e) => (a1, Failed (load_error e))
      | (a1, Returns _) =>
          match wasm a1 with
          | Some m =>
              match mod_default m with
              | Some (InitThrows e) => (a1, Failed (load_error e))
              | Some InitResolves | Some (InitRejects _) => (a1, Pending)
              | None => (a1, check_parse a1)
              end
          | None => (a1, check_parse a1)
          end
      end
  end.

(** A call of [loadWasm]: its promise is new, and the call returns it. *)
Definition loadWasm (h : host) (a : adapter) : adapter * nat :=
  let (a1, p) := loadWasm_run h a in
  (set_loads (loads a1 ++ [p]) a1, List.length (loads a1)).

(** The rest of [loadWasm] once [await this.wasm.default()] resumes. *)
Definition loadWasm_resume (a : adapter) : promise_state :=
  match wasm a with
  | Some m =>
      match mod_default m with
      | Some (InitRejects e) => Failed (load_error e)
      | _ => check_parse a
      end
  | None => check_parse a
  end.

(** The field initializers and the constructor, lines 4-9. *)
Definition fresh : adapter :=
  {| wasm := None; loadPromise := None; loads := []; probes := [];
     calls := [] |}.

Definition constructor (h : host) : adapter :=
  let (a, p) := loadWasm h fresh in set_loadPromise (Some p) a.

(** Lines 62-67 of [parse]: the part after the [await]. *)
Definition parse_finish (a : adapter) (xml : string) : outcome value :=
  match wasm a with
  | Some m =>
      match mod_parse m with
      | Some f =>
          match f xml with
          | Returns v => Resolved v
          | Throws e => Rejected e
          end
      | None => Rejected not_available_error
      end
  | None => Rejected not_available_error
  end.

(** What happens around the adapter after its construction: a caller
    invokes [parse]; the initializer awaited by load [p] settles and
    [loadWasm] resumes; the parse call number [c] resumes after its
    [await]. *)
Inductive event : Type :=
| ParseCalled (xml : string)
| InitSettled (p : nat)
| ParseResumed (c : nat).

(** [parse] up to its [await], or to its end when [this.loadPromise] is
    null. *)
Definition parse_begin (a : adapter) (xml : string) : adapter :=
  match loadPromise a with
  | Some p =>
      set_calls
        (calls a ++ [{| call_xml := xml; call_status_of := Awaiting p |}]) a
  | None =>
      set_calls
        (calls a ++ [{| call_xml := xml;
                        call_status_of := Settled (parse_finish a xml) |}]) a
  end.

(** [parse] from its [await]: a rejection of the awaited promise rejects the
    call and leaves [this.loadPromise]; otherwise the field is set to null
    and the call goes on.  Nothing happens while the promise is pending. *)
Definition parse_resume (a : adapter) (c : nat) : adapter :=
  match nth_error (calls a) c with
  | Some {| call_xml := xml; call_status_of := Awaiting p |} =>
      match nth_error (loads a) p with
      | Some Fulfilled =>
          let a' := set_loadPromise None a in
          set_calls
            (update_nth c
               {| call_xml := xml;
                  call_status_of := Settled (parse_finish a' xml) |}
               (calls a')) a'
      | Some (Failed e) =>
          set_calls
            (update_nth c
               {| call_xml := xml; call_status_of := Settled (Rejected e) |}
               (calls a)) a
      | Some Pending | None => a
      end
  | _ => a
  end.

Definition step (a : adapter) (ev : event) : adapter :=
  match ev with
  | ParseCalled xml => parse_begin a xml
  | InitSettled p =>
      match nth_error (loads a) p with
      | Some Pending => set_loads (update_nth p (loadWasm_resume a) (loads a)) a
      | _ => a
      end
  | ParseResumed c => parse_resume a c
  end.

(** The adapter after its construction and a sequence of events. *)
Definition run (h : host) (evs : list event) : adapter :=
  fold_left step evs (constructor h).

(** The settled state of the load of the constructor: as the constructor
    leaves it, or as the resumption of [loadWasm] leaves it. *)
Definition final_load (h : host) : promise_state :=
  match loads (constructor h) with
  | [Pending] => loadWasm_resume (constructor h)
  | [p] => p
  | _ => Pending
  end.

(** What holds of the adapter at every moment after its construction.
    There is one load promise, number 0; [this.loadPromise] is that promise
    or, once it is fulfilled, null; the module and the probes are those of
    the constructor; a suspended call waits for promise 0, and a finished
    call has the outcome that the settled load dictates. *)
Definition call_ok (h : host) (p : promise_state) (c : parse_call) : Prop :=
  match call_status_of c with
  | Awaiting q => q = 0
  | Settled r =>
      match p with
      | Pending => False
      | Failed e => r = Rejected e
      | Fulfilled => r = parse_finish (constructor h) (call_xml c)
      end
  end.

Definition invariant (h : host) (a : adapter) : Prop :=
  wasm a = wasm (constructor h)
  /\ probes a = probes (constructor h)
  /\ exists p,
      loads a = [p]
      /\ (loadPromise a = Some 0 \/ (loadPromise a = None /\ p = Fulfilled))
      /\ Forall (call_ok h p) (calls a)
      /\ ((p = Pending /\ loads (constructor h) = [Pending])
          \/ (p <> Pending /\ p = final_load h)).

(** *** The load as the specification words it *)

Definition parse_called (ev : event) : bool :=
  match ev with ParseCalled _ => true | _ => false end.

(** Lazy loading: as long as no call of [parse] was made, no load was
    started: no promise of [loadWasm] exists and no location was probed. *)
Definition lazy_load (h : host) : Prop :=
  forall evs, existsb parse_called evs = false ->
              loads (run h evs) = [] /\ probes (run h evs) = [].

(** The exports of the first location, in the order given, at which
    [require] returns; the error of the last location when it returns at
    none. *)
Fixpoint first_loadable (h : host) (paths : list string)
  : completion (option wasm_module) :=
  match paths with
  | [] => Throws ""
  | p :: rest =>
      match require h p with
      | Returns m => Returns m
      | Throws e =>
          match rest with
          | [] => Throws e
          | _ :: _ => first_loadable h rest
          end
      end
  end.

(** The error that makes the adapter unavailable, if any: no location
    loads; the initializer fails; the module has no [parse] function. *)
Definition load_failure (h : host) : option string :=
  match first_loadable h (candidates h) with
  | Throws e => Some (load_error e)
  | Returns None => Some no_parse_error
  | Returns (Some m) =>
      match mod_default m with
      | Some (InitThrows e) | Some (InitRejects e) => Some (load_error e)
      | Some InitResolves | None =>
          match mod_parse m with
          | Some _ => None
          | None => Some no_parse_error
          end
      end
  end.

(** The [parse] function of the module that was loaded. *)
Definition loaded_parse (h : host) : option (string -> completion value) :=
  match first_loadable h (candidates h) with
  | Returns (Some m) => mod_parse m
  | _ => None
  end.

Definition settle (r : completion value) : outcome value :=
  match r with
  | Returns v => Resolved v
  | Throws e => Rejected e
  end.

(** The events that resume the parse calls number 0 to [n - 1], in turn. *)
Definition resume_all (n : nat) : list event :=
  map ParseResumed (seq 0 n).

Definition is_settled (c : parse_call) : bool :=
  match call_status_of c with
  | Settled _ => true
  | Awaiting _ => false
  end.

(** *** Sample hosts *)

Definition sample_join (a b : string) : string := a ++ "/" ++ b.

Definition not_found (p : string) : completion (option wasm_module) :=
  Throws ("Cannot find module '" ++ p ++ "'").

(** A host on which no location holds the module. *)
Definition host_without_module : host :=
  {| dirname := "/opt/companion/dist/xml";
     cwd := "/opt/companion";
     path_join := sample_join;
     require := not_found |}.

Definition sample_tree : value :=
  VObj [("vmix", VArr [VObj [("version", VArr [str "27"])]])].

Definition sample_module : wasm_module :=
  {| mod_default := Some InitResolves;
     mod_parse := Some (fun _ => Returns sample_tree) |}.

(** A host with the built module at the development location only. *)
Definition host_with_dev_module : host :=
  {| dirname := "/opt/companion/dist/xml";
     cwd := "/opt/companion";
     path_join := sample_join;
     require := fun p =>
       if String.eqb p "/opt/companion/src/bench/wasm/pkg/vmix_xml.js"
       then Returns (Some sample_module)
       else not_found p |}.

End Wasm.

(** ** The benchmark's use of the Rust/WASM adapter *)

(** The block of the optimization benchmark that tries the Rust/WASM
    adapter before measuring it (its lines 174-201). *)
Module Bench.
Import Js Wasm.

(** [xml.substring(0, Math.min(1000, xml.length))]; a string is the
    sequence of its code units. *)
Definition test_document (xml : string) : string :=
  String.substring 0 (Nat.min 1000 (String.length xml)) xml.

(** [await testAdapter.parse(x)] on a new adapter: the call is made, the
    initializer settles, the call resumes.  [None] stands for an [await]
    that does not return. *)
Definition awaited_parse (h : host) (x : string) : option (outcome value) :=
  match calls (run h [ParseCalled x; InitSettled 0; ParseResumed 0]) with
  | [c] =>
      match call_status_of c with
      | Settled r => Some r
      | Awaiting _ => None
      end
  | _ => None
  end.

(** What the block pushes to [results]: a measurement, or a record with
    [skipped: true] and the message of the error. *)
Inductive bench_entry (R : Type) : Type :=
| Measured (r : R)
| SkippedEntry (error : string).
Arguments Measured {R} r.
Arguments SkippedEntry {R} error.

Definition test_failed (msg : string) : string :=
  "Rust WASM test parse failed: " ++ msg.

(** The entries that the block pushes.  [runBenchmark] and [formatResult]
    are the functions of the same file, taken by their outcome: the first
    measures with a clock, the second formats numbers. *)
Definition rust_wasm_entries {R : Type} (h : host)
           (runBenchmark : string -> outcome R)
           (formatResult : R -> completion string) (xml : string)
  : option (list (bench_entry R)) :=
  match awaited_parse h (test_document xml) with
  | None => None
  | Some (Rejected e) => Some [SkippedEntry (test_failed e)]
  | Some (Resolved _) =>
      match runBenchmark xml with
      | Rejected e => Some [SkippedEntry e]
      | Resolved r =>
          match formatResult r with
          | Returns _ => Some [Measured r]
          | Throws e => Some [Measured r; SkippedEntry e]
          end
      end
  end.

(** A module that parses whole documents only: it throws on the test
    document of a long input. *)
Definition whole_only_module : wasm_module :=
  {| mod_default := None;
     mod_parse :=
       Some (fun x =>
               if (String.length x =? 1000)%nat
               then Throws "unexpected end of document"
               else Returns sample_tree) |}.

Definition host_with_whole_only_module : host :=
  {| dirname := "/opt/companion/dist/xml";
     cwd := "/opt/companion";
     path_join := sample_join;
     require := fun _ => Returns (Some whole_only_module) |}.

Fixpoint repeat_string (s : string) (n : nat) : string :=
  match n with
  | O => ""
  | S n' => s ++ repeat_string s n'
  end.

(** A document of 1101 code units. *)
Definition long_document : string :=
  "<vmix>" ++ repeat_string "<input/>" 136 ++ "</vmix>".

End Bench.

(** * Properties *)

(** ** Objects as ordered property lists *)

Module JsFacts.
Import Js.

Lemma existsb_eqb_In (k : string) (ks : list string) :
  existsb (String.eqb k) ks = true <-> In k ks.
Proof.
  rewrite existsb_exists. split.
  - intros [x [Hin Heq]]. apply String.eqb_eq in Heq. now subst.
  - intros Hin. exists k. split; [assumption | apply String.eqb_refl].
Qed.

Lemma distinctb_NoDup (ks : list string) :
  distinctb ks = true <-> NoDup ks.
Proof.
  induction ks as [|k rest IH]; simpl.
  - split; [constructor | reflexivity].
  - rewrite andb_true_iff, negb_true_iff, IH. split.
    + intros [Hk Hrest]. constructor; [|assumption].
      intro Hin. apply existsb_eqb_In in Hin. congruence.
    + intros Hnd. inversion Hnd as [|? ? Hk Hrest]; subst. split; [|assumption].
      destruct (existsb (String.eqb k) rest) eqn:E; [|reflexivity].
      apply existsb_eqb_In in E. contradiction.
Qed.

Lemma plainb_spec (ks : list string) :
  plainb ks = true <-> NoDup ks /\ ~ In proto_key ks.
Proof.
  unfold plainb. rewrite andb_true_iff, negb_true_iff, distinctb_NoDup.
  split; intros [Hnd Hp]; (split; [assumption|]).
  - intro Hin. apply existsb_eqb_In in Hin. congruence.
  - destruct (existsb (String.eqb proto_key) ks) eqn:E; [|reflexivity].
    apply existsb_eqb_In in E. contradiction.
Qed.

(** Assigning a key that the object does not have yet adds the property at
    the end. *)
Lemma own_set_fresh (key : string) (v : value) (o : list (string * value)) :
  ~ In key (keys o) -> own_set key v o = o ++ [(key, v)].
Proof.
  induction o as [|[k x] rest IH]; simpl; intros Hfresh.
  - reflexivity.
  - destruct (String.eqb k key) eqn:E.
    + apply String.eqb_eq in E. exfalso. apply Hfresh. now left.
    + f_equal. apply IH. intro Hin. apply Hfresh. now right.
Qed.

Lemma obj_set_fresh (key : string) (v : value) (o : list (string * value)) :
  String.eqb key proto_key = false ->
  ~ In key (keys o) -> obj_set key v o = o ++ [(key, v)].
Proof.
  intros Hk Hfresh. unfold obj_set. rewrite Hk. now apply own_set_fresh.
Qed.

(** Assigning [__proto__] leaves the own properties as they are. *)
Lemma obj_set_proto (v : value) (o : list (string * value)) :
  obj_set proto_key v o = o.
Proof. reflexivity. Qed.

Lemma own_set_keys_In (key k : string) (v : value)
      (o : list (string * value)) :
  In k (keys (own_set key v o)) -> k = key \/ In k (keys o).
Proof.
  induction o as [|[k0 x] rest IH]; simpl.
  - intros [H|[]]. now left.
  - destruct (String.eqb k0 key) eqn:E; simpl.
    + intros [H|H]; right; [now left | now right].
    + intros [H|H]; [right; now left|].
      destruct (IH H) as [H'|H']; [now left | right; now right].
Qed.

(** An assignment never duplicates a key... *)
Lemma obj_set_NoDup (key : string) (v : value) (o : list (string * value)) :
  NoDup (keys o) -> NoDup (keys (obj_set key v o)).
Proof.
  unfold obj_set. destruct (String.eqb key proto_key); [trivial|].
  induction o as [|[k x] rest IH]; simpl; intros Hnd.
  - constructor; [intros [] | constructor].
  - inversion Hnd as [|? ? Hk Hrest]; subst.
    destruct (String.eqb k key) eqn:E; simpl.
    + constructor; assumption.
    + constructor; [|now apply IH].
      intro Hin. apply own_set_keys_In in Hin. destruct Hin as [Heq|Hin].
      * subst. rewrite String.eqb_refl in E. discriminate.
      * contradiction.
Qed.

(** ... and never creates an own property named [__proto__]. *)
Lemma obj_set_no_proto (key : string) (v : value)
      (o : list (string * value)) :
  ~ In proto_key (keys o) -> ~ In proto_key (keys (obj_set key v o)).
Proof.
  unfold obj_set. destruct (String.eqb key proto_key) eqn:Hk; [trivial|].
  intros Ho Hin. apply own_set_keys_In in Hin. destruct Hin as [Heq|Hin].
  - subst key. rewrite String.eqb_refl in Hk. discriminate.
  - contradiction.
Qed.

(** Every property of the object after an assignment is the assigned one or
    was there before. *)
Lemma obj_set_In (key : string) (v : value) (o : list (string * value))
      (e : string * value) :
  In e (obj_set key v o) -> e = (key, v) \/ In e o.
Proof.
  unfold obj_set. destruct (String.eqb key proto_key); [now right|].
  induction o as [|[k x] rest IH]; simpl.
  - intros [H|[]]. now left.
  - destruct (String.eqb k key) eqn:E; simpl.
    + apply String.eqb_eq in E. subst.
      intros [H|H]; [now left | right; now right].
    + intros [H|H]; [right; now left|].
      destruct (IH H) as [H'|H']; [now left | right; now right].
Qed.

Lemma drop_proto_plain (entries : list (string * value)) :
  ~ In proto_key (keys entries) -> drop_proto entries = entries.
Proof.
  induction entries as [|[k x] rest IH]; intros Hp; cbn; [reflexivity|].
  destruct (String.eqb k proto_key) eqn:Hk; cbn.
  - apply String.eqb_eq in Hk. exfalso. apply Hp. now left.
  - f_equal. apply IH. intro Hin. apply Hp. now right.
Qed.

Section build_object.
Variable member : string -> value -> value.

Lemma keys_members (entries : list (string * value)) :
  keys (members member entries) = keys entries.
Proof.
  unfold keys, members. rewrite map_map. apply map_ext. reflexivity.
Qed.

(** The loop adds the entries in their order, each with its computed value,
    except an entry named [__proto__], which it drops. *)
Lemma assign_all_fresh (entries acc : list (string * value)) :
  NoDup (keys acc ++ keys entries) ->
  assign_all member entries acc
  = acc ++ members member (drop_proto entries).
Proof.
  revert acc. induction entries as [|[k x] rest IH]; intros acc Hnd.
  - cbn. now rewrite app_nil_r.
  - unfold assign_all in *. cbn [fold_left fst snd drop_proto filter].
    cbn [keys map fst] in Hnd.
    destruct (String.eqb k proto_key) eqn:Hk; cbn [negb].
    + apply String.eqb_eq in Hk. subst k. rewrite obj_set_proto.
      apply IH. now apply NoDup_remove_1 in Hnd.
    + assert (Hfresh : ~ In k (keys acc)).
      { intro Hin. apply NoDup_remove_2 in Hnd. apply Hnd.
        apply in_or_app. now left. }
      rewrite (obj_set_fresh _ _ _ Hk Hfresh).
      rewrite IH.
      * cbn [members map fst snd]. now rewrite <- app_assoc.
      * unfold keys in *. rewrite map_app. cbn [map fst].
        rewrite <- app_assoc. exact Hnd.
Qed.

Lemma assign_all_distinct (entries : list (string * value)) :
  distinctb (keys entries) = true ->
  assign_all member entries [] = members member (drop_proto entries).
Proof.
  intros Hd. apply distinctb_NoDup in Hd.
  now rewrite assign_all_fresh.
Qed.

(** On an object with no own [__proto__] key, the loop yields the entries
    in their order, each with its computed value. *)
Lemma assign_all_members (entries : list (string * value)) :
  plainb (keys entries) = true ->
  assign_all member entries [] = members member entries.
Proof.
  intros Hp. apply plainb_spec in Hp. destruct Hp as [Hnd Hp].
  rewrite assign_all_fresh by exact Hnd.
  now rewrite drop_proto_plain.
Qed.

Lemma assign_all_NoDup (entries acc : list (string * value)) :
  NoDup (keys acc) -> NoDup (keys (assign_all member entries acc)).
Proof.
  revert acc. unfold assign_all.
  induction entries as [|e rest IH]; intros acc Hnd; simpl.
  - assumption.
  - apply IH. now apply obj_set_NoDup.
Qed.

Lemma assign_all_no_proto (entries acc : list (string * value)) :
  ~ In proto_key (keys acc) ->
  ~ In proto_key (keys (assign_all member entries acc)).
Proof.
  revert acc. unfold assign_all.
  induction entries as [|e rest IH]; intros acc Hp; simpl.
  - assumption.
  - apply IH. now apply obj_set_no_proto.
Qed.

Lemma assign_all_plain (entries : list (string * value)) :
  plainb (keys (assign_all member entries [])) = true.
Proof.
  apply plainb_spec. split.
  - apply assign_all_NoDup. constructor.
  - apply assign_all_no_proto. intros [].
Qed.

Lemma assign_all_In (entries acc : list (string * value)) (e : string * value) :
  In e (assign_all member entries acc) ->
  In e acc
  \/ exists e0, In e0 entries /\ e = (fst e0, member (fst e0) (snd e0)).
Proof.
  revert acc. unfold assign_all.
  induction entries as [|e1 rest IH]; intros acc Hin; simpl in *.
  - now left.
  - destruct (IH _ Hin) as [H|[e0 [H0 H1]]].
    + apply obj_set_In in H. destruct H as [H|H]; [|now left].
      right. exists e1. split; [now left | assumption].
    + right. exists e0. split; [now right | assumption].
Qed.

End build_object.

End JsFacts.

(** ** The normalization pass *)

Module CanonFacts.
Import Js Canon JsFacts.

(** *** The equations of the pass, case by case *)

Lemma normalize_null : normalizeToXml2jsFormat VNull = VNull.
Proof. reflexivity. Qed.

Lemma normalize_undefined : normalizeToXml2jsFormat VUndefined = VUndefined.
Proof. reflexivity. Qed.

Lemma normalize_array (items : list value) :
  normalizeToXml2jsFormat (VArr items)
  = VArr (map normalizeToXml2jsFormat items).
Proof. reflexivity. Qed.

Lemma normalize_scalar (s : scalar) :
  normalizeToXml2jsFormat (VScalar s) = VArr [VScalar s].
Proof. reflexivity. Qed.

(** Line 27: [obj === null || obj === undefined]. *)
Lemma normalize_null_or_undefined (v : value) :
  is_null v || is_undefined v = true -> normalizeToXml2jsFormat v = v.
Proof. destruct v; try discriminate; reflexivity. Qed.

(** Lines 31 and 35: the guards of the array and of the object case. *)
Lemma normalize_guard_array (v : value) :
  isArray v = true ->
  exists items, v = VArr items
                /\ normalizeToXml2jsFormat v
                   = VArr (map normalizeToXml2jsFormat items).
Proof. destruct v; try discriminate. intros _. now eexists. Qed.

Lemma normalize_guard_scalar (v : value) :
  is_null v || is_undefined v = false ->
  isArray v = false ->
  js_type_eqb (typeof v) TyObject = false ->
  normalizeToXml2jsFormat v = VArr [v].
Proof.
  destruct v as [| |s|items|entries]; try discriminate; reflexivity.
Qed.

(** The loop of lines 37-51 assigns [normalize_member key value] to [key] for
    each entry. *)
Lemma normalize_object_loop (entries : list (string * value)) :
  normalizeToXml2jsFormat (VObj entries)
  = VObj (assign_all normalize_member entries []).
Proof.
  simpl. f_equal. unfold assign_all. generalize (@nil (string * value)).
  induction entries as [|[k x] rest IH]; intros acc; simpl.
  - reflexivity.
  - rewrite <- IH. f_equal. unfold normalize_member.
    destruct (String.eqb k attrs_key); [reflexivity|].
    destruct x; reflexivity.
Qed.

Lemma normalize_object (entries : list (string * value)) :
  plainb (keys entries) = true ->
  normalizeToXml2jsFormat (VObj entries)
  = VObj (members normalize_member entries).
Proof.
  intros Hd. rewrite normalize_object_loop. f_equal.
  now apply assign_all_members.
Qed.

(** An own property named [__proto__] is not carried over: the assignment
    of line 43, 46 or 49 runs the prototype setter of the new object. *)
Lemma normalize_object_drops_proto (entries : list (string * value)) :
  distinctb (keys entries) = true ->
  normalizeToXml2jsFormat (VObj entries)
  = VObj (members normalize_member (drop_proto entries)).
Proof.
  intros Hd. rewrite normalize_object_loop. f_equal.
  now apply assign_all_distinct.
Qed.

(** The branch conditions of the source, read on the model. *)
Lemma normalize_member_attrs (v : value) :
  normalize_member attrs_key v = v.
Proof. reflexivity. Qed.

Lemma normalize_member_array (key : string) (items : list value) :
  String.eqb key attrs_key = false ->
  normalize_member key (VArr items)
  = VArr (map normalizeToXml2jsFormat items).
Proof. intros H. unfold normalize_member. now rewrite H. Qed.

Lemma normalize_member_object (key : string) (v : value) :
  String.eqb key attrs_key = false ->
  isArray v = false ->
  js_type_eqb (typeof v) TyObject = true ->
  is_null v = false ->
  normalize_member key v = VArr [normalizeToXml2jsFormat v].
Proof.
  intros H Ha Ht Hn. unfold normalize_member. rewrite H.
  destruct v as [| |s|items|entries]; try discriminate; try reflexivity.
  destruct s; discriminate.
Qed.

Lemma normalize_member_other (key : string) (v : value) :
  String.eqb key attrs_key = false ->
  isArray v = false ->
  js_type_eqb (typeof v) TyObject && negb (is_null v) = false ->
  normalize_member key v = VArr [v].
Proof.
  intros H Ha Ht. unfold normalize_member. rewrite H.
  destruct v as [| |s|items|entries]; try discriminate; reflexivity.
Qed.

(** *** Small trees *)

Example normalize_single_child :
  normalizeToXml2jsFormat
    (VObj [("vmix", VObj [("version", str "27"); ("preview", num 2)])])
  = VObj [("vmix", VArr [VObj [("version", VArr [str "27"]);
                              ("preview", VArr [num 2])]])].
Proof. reflexivity. Qed.

Example normalize_attributes_kept :
  normalizeToXml2jsFormat
    (VObj [("input", VObj [("$", VObj [("key", str "1")])])])
  = VObj [("input", VArr [VObj [("$", VObj [("key", str "1")])]])].
Proof. reflexivity. Qed.

Example normalize_repeated_children :
  normalizeToXml2jsFormat
    (VObj [("input", VArr [VObj [("$", VObj [("key", str "1")])];
                           VObj [("$", VObj [("key", str "2")])]])])
  = VObj [("input", VArr [VObj [("$", VObj [("key", str "1")])];
                          VObj [("$", VObj [("key", str "2")])]])].
Proof. reflexivity. Qed.

Example normalize_repeated_text :
  normalizeToXml2jsFormat (VObj [("a", VArr [str "x"; str "y"])])
  = VObj [("a", VArr [VArr [str "x"]; VArr [str "y"]])].
Proof. reflexivity. Qed.

Example normalize_null_member :
  normalizeToXml2jsFormat (VObj [("a", VNull); ("b", VUndefined)])
  = VObj [("a", VArr [VNull]); ("b", VArr [VUndefined])].
Proof. reflexivity. Qed.

(** *** The canonical shape of the output *)

Lemma forallb_In {A : Type} (f : A -> bool) (l : list A) (x : A) :
  forallb f l = true -> In x l -> f x = true.
Proof. intros H. rewrite forallb_forall in H. apply H. Qed.


(** Whatever the loop stores under a key other than ["$"] is an array of
    canonical items, provided the pass makes the entry's value canonical. *)
Lemma normalize_member_canonical (key : string) (x : value) :
  is_canonical (normalizeToXml2jsFormat x) = true ->
  String.eqb key attrs_key = false ->
  exists items, normalize_member key x = VArr items
                /\ forallb is_canonical items = true.
Proof.
  intros Hx Hk. unfold normalize_member. rewrite Hk.
  destruct x as [| |s|items|entries].
  - exists [VNull]. split; reflexivity.
  - exists [VUndefined]. split; reflexivity.
  - exists [VScalar s]. split; reflexivity.
  - exists (map normalizeToXml2jsFormat items). split; [reflexivity | exact Hx].
  - exists [normalizeToXml2jsFormat (VObj entries)]. split; [reflexivity|].
    cbn [forallb]. now rewrite Hx.
Qed.

(** The output of the pass is canonical, whatever the input. *)
Lemma output_canonical (t : value) :
  is_canonical (normalizeToXml2jsFormat t) = true.
Proof.
  induction t as [| |s|items IH|entries IH] using value_ind;
    try reflexivity.
  - simpl. apply forallb_forall. intros y Hy.
    apply in_map_iff in Hy. destruct Hy as [x [<- Hx]].
    rewrite Forall_forall in IH. now apply IH.
  - rewrite normalize_object_loop. simpl. apply forallb_forall.
    intros [k y] Hin. apply assign_all_In in Hin.
    destruct Hin as [[]|[[k0 x] [Hin0 Heq]]]. simpl in Heq.
    injection Heq as -> ->.
    destruct (String.eqb k0 attrs_key) eqn:Hk; [reflexivity|].
    rewrite Forall_forall in IH.
    destruct (normalize_member_canonical k0 x) as [items [-> Hitems]];
      [exact (IH _ Hin0) | exact Hk | exact Hitems].
Qed.

(** The boolean [is_canonical] says what its definition words: every object
    among the element nodes holds arrays under its keys other than ["$"]. *)
Lemma element_node_trans (n x t : value) :
  element_node n x -> element_node x t -> element_node n t.
Proof.
  intros Hn Hx.
  induction Hn as [x|y items x _ IH Hin|k y entries x _ IH Hin Hk].
  - exact Hx.
  - exact (element_item _ _ _ (IH Hx) Hin).
  - exact (element_member _ _ _ _ (IH Hx) Hin Hk).
Qed.

Lemma canonical_member (entries : list (string * value)) (key : string)
      (x : value) :
  is_canonical (VObj entries) = true ->
  In (key, x) entries -> key <> attrs_key ->
  isArray x = true /\ is_canonical x = true.
Proof.
  intros Hc Hin Hk. cbn [is_canonical] in Hc.
  pose proof (forallb_In _ _ _ Hc Hin) as Hx. cbn beta iota in Hx.
  apply String.eqb_neq in Hk. rewrite Hk in Hx.
  destruct x; try discriminate. now split.
Qed.

Lemma canonical_element_node (n t : value) :
  is_canonical t = true -> element_node n t -> is_canonical n = true.
Proof.
  intros Ht Hn.
  induction Hn as [t|y items t _ IH Hin|k y entries t _ IH Hin Hk].
  - exact Ht.
  - specialize (IH Ht). cbn [is_canonical] in IH.
    exact (forallb_In _ _ _ IH Hin).
  - exact (proj2 (canonical_member _ _ _ (IH Ht) Hin Hk)).
Qed.

Lemma is_canonical_spec (t : value) :
  is_canonical t = true <->
  (forall entries key x,
      element_node (VObj entries) t -> In (key, x) entries ->
      key <> attrs_key -> isArray x = true).
Proof.
  split.
  - intros Ht entries key x Hn Hin Hk.
    exact (proj1 (canonical_member _ _ _
                    (canonical_element_node _ _ Ht Hn) Hin Hk)).
  - induction t as [| |s|items IH|entries IH] using value_ind;
      intros Hall; try reflexivity.
    + cbn [is_canonical]. apply forallb_forall. intros x Hx.
      rewrite Forall_forall in IH. apply IH; [assumption|].
      intros es k y Hn. apply Hall.
      apply element_node_trans with (x := x); [assumption|].
      exact (element_item _ _ _ (element_root _) Hx).
    + cbn [is_canonical]. apply forallb_forall. intros [k x] Hin.
      destruct (String.eqb k attrs_key) eqn:Hk; [reflexivity|].
      apply String.eqb_neq in Hk.
      rewrite Forall_forall in IH. specialize (IH _ Hin). cbn [snd] in IH.
      assert (Hx : is_canonical x = true).
      { apply IH. intros es k' y Hn. apply Hall.
        apply element_node_trans with (x := x); [assumption|].
        exact (element_member _ _ _ _ (element_root _) Hin Hk). }
      pose proof (Hall entries k x (element_root _) Hin Hk) as Harr.
      destruct x; try discriminate. exact Hx.
Qed.

(** C2, as stated, fails: line 40 copies the value under ["$"] as it is, so
    an object inside it keeps its scalars.  The output for
    [{input: {$: {key: "1"}}}] holds the object [{key: "1"}], whose key
    [key] holds a scalar and no array. *)
Lemma normalize_attribute_record_kept :
  normalizeToXml2jsFormat sample_attribute_element
  = VObj [("input", VArr [VObj [("$", VObj [("key", str "1")])]])]
  /\ every_map_sequenced (normalizeToXml2jsFormat sample_attribute_element)
     = false.
Proof. split; reflexivity. Qed.

(** C2, amended.  For every tree, the output of [normalizeToXml2jsFormat]
    has the canonical shape on its element nodes: in every object of the
    output that is the root, an item of an array, or a node under a key
    other than ["$"], every key other than ["$"] holds an array, at every
    depth, whether the input held one child or many under that key.  The
    value under ["$"] is copied as it is, whatever its shape. *)
Theorem normalize_canonical (t : value) :
  is_canonical (normalizeToXml2jsFormat t) = true
  /\ forall entries key x,
      element_node (VObj entries) (normalizeToXml2jsFormat t) ->
      In (key, x) entries -> key <> attrs_key ->
      exists items, x = VArr items.
Proof.
  pose proof (output_canonical t) as Hc. split; [exact Hc|].
  intros entries key x Hn Hin Hk.
  pose proof (proj1 (is_canonical_spec _) Hc entries key x Hn Hin Hk) as Hx.
  destruct x; try discriminate. now eexists.
Qed.

(** One child or many: both end as an array under the key. *)
Example canonical_one_or_many :
  normalizeToXml2jsFormat
    (VObj [("one", VObj [("$", VObj [("key", str "1")])]);
           ("many", VArr [VObj []; VObj []])])
  = VObj [("one", VArr [VObj [("$", VObj [("key", str "1")])]]);
          ("many", VArr [VObj []; VObj []])].
Proof. reflexivity. Qed.

(** *** The pass against its description in the specification *)

(** C3, as stated, fails on an object with an own property named
    [__proto__]: the case analysis gives that key the wrapped value, the
    pass returns an object without the key. *)
Lemma normalize_not_case_analysis :
  normalizeToXml2jsFormat sample_proto_tree
  <> spec_normalize sample_proto_tree.
Proof. cbv. discriminate. Qed.

Example normalize_proto_tree :
  normalizeToXml2jsFormat sample_proto_tree
  = VObj [("a", VArr [str "x"]); ("b", VArr [str "y"])].
Proof. reflexivity. Qed.

(** C3, amended.  On every tree whose objects have no own property named
    [__proto__] (and distinct keys, as every object has),
    [normalizeToXml2jsFormat] computes the case analysis of section 4.2
    ([spec_normalize]): null and undefined are returned unchanged; an array
    is mapped item by item, in order; in an object the key ["$"] keeps its
    value, a key holding an array gets the array of the normalized items, a
    key holding another non-scalar value gets the one-element array of the
    normalized value, a key holding a scalar gets the one-element array of
    the scalar; a top-level scalar becomes a one-element array. *)
Theorem normalize_refines_spec (t : value) :
  plain_keys t = true ->
  normalizeToXml2jsFormat t = spec_normalize t.
Proof.
  induction t as [| |s|items IH|entries IH] using value_ind;
    intros Hd; try reflexivity.
  - simpl in *. f_equal. apply map_ext_in. intros x Hx.
    rewrite Forall_forall in IH. apply IH; [assumption|].
    exact (forallb_In _ _ _ Hd Hx).
  - simpl in Hd. apply andb_true_iff in Hd. destruct Hd as [Hkeys Hall].
    rewrite (normalize_object _ Hkeys). unfold members.
    change (spec_normalize (VObj entries)) with
      (VObj (map (fun entry : string * value =>
                    let (key, value) := entry in
                    (key,
                     if String.eqb key attrs_key then value
                     else
                       match value with
                       | VArr items => VArr (map spec_normalize items)
                       | VScalar _ => VArr [value]
                       | VObj _ | VNull | VUndefined =>
                           VArr [spec_normalize value]
                       end)) entries)).
    f_equal. apply map_ext_in. intros [k x] Hin. cbn [fst snd]. f_equal.
    unfold normalize_member.
    destruct (String.eqb k attrs_key) eqn:Hk; [reflexivity|].
    rewrite Forall_forall in IH. specialize (IH _ Hin). cbn [snd] in IH.
    pose proof (forallb_In _ _ _ Hall Hin) as Hx. cbn beta iota in Hx.
    rewrite Hk in Hx. specialize (IH Hx).
    destruct x as [| |s|items|sub]; try reflexivity.
    + exact IH.
    + now rewrite IH.
Qed.

(** On the sample tree of a parsed document. *)
Lemma normalize_refines_spec_witness :
  plain_keys sample_parsed_tree = true
  /\ normalizeToXml2jsFormat sample_parsed_tree
     = spec_normalize sample_parsed_tree.
Proof.
  split; [reflexivity|].
  exact (normalize_refines_spec sample_parsed_tree eq_refl).
Defined.

(** *** What the pass leaves in place *)

Lemma obj_get_members (member : string -> value -> value) (key : string)
      (entries : list (string * value)) :
  obj_get key (members member entries)
  = option_map (member key) (obj_get key entries).
Proof.
  induction entries as [|[k x] rest IH]; simpl.
  - reflexivity.
  - destruct (String.eqb k key) eqn:E; [|exact IH].
    apply String.eqb_eq in E. now subst.
Qed.

(** C9, as stated, fails on an object with an own property named
    [__proto__]: the output has the keys [a] and [b] only. *)
Lemma normalize_drops_proto_key :
  ~ match sample_proto_tree, normalizeToXml2jsFormat sample_proto_tree with
    | VObj entries, VObj out =>
        keys out = keys entries
        /\ obj_get attrs_key out = obj_get attrs_key entries
    | _, _ => False
    end.
Proof. cbv. intros [Hkeys _]. discriminate Hkeys. Qed.

(** C9, amended.  The pass keeps the structure of its argument apart from
    wrapping values: for an object with no own property named [__proto__]
    (and distinct keys, as every object has), the output is an object with
    the same keys in the same enumeration order, none added, dropped or
    renamed, and with the very value of the input under ["$"]; for an array,
    the output is an array of the same length. *)
Theorem normalize_preserves_structure (t : value) :
  own_keys_plain t = true ->
  match t, normalizeToXml2jsFormat t with
  | VObj entries, VObj out =>
      keys out = keys entries
      /\ obj_get attrs_key out = obj_get attrs_key entries
  | VArr items, VArr out => List.length out = List.length items
  | VObj _, _ | VArr _, _ => False
  | _, _ => True
  end.
Proof.
  destruct t as [| |s|items|entries]; intros Hd; try exact I.
  - simpl. apply length_map.
  - simpl in Hd. rewrite (normalize_object _ Hd). split.
    + apply keys_members.
    + rewrite obj_get_members.
      destruct (obj_get attrs_key entries); reflexivity.
Qed.

(** On an element with attributes and one text child. *)
Lemma normalize_preserves_structure_witness :
  own_keys_plain
    (VObj [("$", VObj [("key", str "1")]); ("title", str "Cam1")]) = true
  /\ keys [("$", VObj [("key", str "1")]); ("title", VArr [str "Cam1"])]
     = keys [("$", VObj [("key", str "1")]); ("title", str "Cam1")]
  /\ obj_get attrs_key
       [("$", VObj [("key", str "1")]); ("title", VArr [str "Cam1"])]
     = obj_get attrs_key
         [("$", VObj [("key", str "1")]); ("title", str "Cam1")].
Proof.
  split; [reflexivity|].
  exact (normalize_preserves_structure
           (VObj [("$", VObj [("key", str "1")]); ("title", str "Cam1")])
           eq_refl).
Defined.

(** *** Applying the pass twice *)

(** The objects of the output have plain keys, whatever the input. *)
Lemma normalize_plain_keys (t : value) :
  plain_keys (normalizeToXml2jsFormat t) = true.
Proof.
  induction t as [| |s|items IH|entries IH] using value_ind;
    try reflexivity.
  - simpl. apply forallb_forall. intros y Hy.
    apply in_map_iff in Hy. destruct Hy as [x [<- Hx]].
    rewrite Forall_forall in IH. now apply IH.
  - rewrite normalize_object_loop. cbn [plain_keys].
    apply andb_true_iff. split.
    + apply assign_all_plain.
    + apply forallb_forall. intros [k y] Hin. apply assign_all_In in Hin.
      destruct Hin as [[]|[[k0 x] [Hin0 Heq]]]. cbn [fst snd] in Heq.
      injection Heq as -> ->.
      destruct (String.eqb k0 attrs_key) eqn:Hk; [reflexivity|].
      rewrite Forall_forall in IH. specialize (IH _ Hin0). cbn [snd] in IH.
      unfold normalize_member. rewrite Hk.
      destruct x as [| |s|items|sub]; try reflexivity.
      * exact IH.
      * cbn [plain_keys forallb]. now rewrite IH.
Qed.

(** The pass introduces no scalar into element positions... *)
Lemma normalize_scalar_free (t : value) :
  scalar_free t = true -> scalar_free (normalizeToXml2jsFormat t) = true.
Proof.
  induction t as [| |s|items IH|entries IH] using value_ind;
    intros Hs; try reflexivity; try discriminate.
  - simpl in *. apply forallb_forall. intros y Hy.
    apply in_map_iff in Hy. destruct Hy as [x [<- Hx]].
    rewrite Forall_forall in IH. apply IH; [assumption|].
    exact (forallb_In _ _ _ Hs Hx).
  - rewrite normalize_object_loop. cbn [scalar_free] in *.
    apply forallb_forall. intros [k y] Hin. apply assign_all_In in Hin.
    destruct Hin as [[]|[[k0 x] [Hin0 Heq]]]. cbn [fst snd] in Heq.
    injection Heq as -> ->.
    destruct (String.eqb k0 attrs_key) eqn:Hk; [reflexivity|].
    rewrite Forall_forall in IH. specialize (IH _ Hin0). cbn [snd] in IH.
    pose proof (forallb_In _ _ _ Hs Hin0) as Hx. cbn beta iota in Hx.
    rewrite Hk in Hx. specialize (IH Hx).
    unfold normalize_member. rewrite Hk.
    destruct x as [| |s|items|sub]; try reflexivity; try discriminate.
    + exact IH.
    + cbn [scalar_free forallb]. now rewrite IH.
Qed.

(** ... and leaves unchanged a canonical tree that holds none. *)
Lemma normalize_fixed (t : value) :
  plain_keys t = true ->
  is_canonical t = true ->
  scalar_free t = true ->
  normalizeToXml2jsFormat t = t.
Proof.
  induction t as [| |s|items IH|entries IH] using value_ind;
    intros Hd Hc Hs; try reflexivity; try discriminate.
  - simpl in *. f_equal. rewrite <- (map_id items) at 2.
    apply map_ext_in. intros x Hx. rewrite Forall_forall in IH.
    apply IH; [assumption| | |]; eapply forallb_In; eassumption.
  - cbn [plain_keys is_canonical scalar_free] in *.
    apply andb_true_iff in Hd. destruct Hd as [Hkeys Hd].
    rewrite (normalize_object _ Hkeys). f_equal. unfold members.
    rewrite <- (map_id entries) at 2.
    apply map_ext_in. intros [k x] Hin. cbn [fst snd].
    f_equal. unfold normalize_member.
    destruct (String.eqb k attrs_key) eqn:Hk; [reflexivity|].
    rewrite Forall_forall in IH. specialize (IH _ Hin). cbn [snd] in IH.
    pose proof (forallb_In _ _ _ Hd Hin) as Hdx.
    pose proof (forallb_In _ _ _ Hc Hin) as Hcx.
    pose proof (forallb_In _ _ _ Hs Hin) as Hsx.
    cbn beta iota in Hdx, Hcx, Hsx. rewrite Hk in Hdx, Hcx, Hsx.
    destruct x as [| |s|items|sub]; try discriminate.
    exact (IH Hdx Hcx Hsx).
Qed.

(** A scalar that the pass wrapped once is wrapped again by a second run:
    the text of a single child ends up two arrays deep. *)
Lemma normalize_twice_text :
  normalizeToXml2jsFormat
    (normalizeToXml2jsFormat (VObj [("title", str "Cam1")]))
  = VObj [("title", VArr [VArr [str "Cam1"]])].
Proof. reflexivity. Qed.

(** C1, as stated, fails: on the tree [{title: "Cam1"}] the second run
    changes the output of the first. *)
Lemma normalize_not_idempotent :
  normalizeToXml2jsFormat
    (normalizeToXml2jsFormat (VObj [("title", str "Cam1")]))
  <> normalizeToXml2jsFormat (VObj [("title", str "Cam1")]).
Proof. cbv. discriminate. Qed.

(** C1, amended.  On every tree that holds no scalar outside attribute
    records, the pass is idempotent; and it returns unchanged every such
    tree that is already canonical and whose objects have plain keys:
    distinct, as those of every object, and none of them [__proto__]. *)
Theorem normalize_idempotent_scalar_free (t : value) :
  scalar_free t = true ->
  normalizeToXml2jsFormat (normalizeToXml2jsFormat t)
  = normalizeToXml2jsFormat t
  /\ (plain_keys t = true -> is_canonical t = true ->
      normalizeToXml2jsFormat t = t).
Proof.
  intros Hs. split.
  - apply normalize_fixed.
    + apply normalize_plain_keys.
    + apply output_canonical.
    + now apply normalize_scalar_free.
  - intros Hd Hc. now apply normalize_fixed.
Qed.

(** On the sample tree of attribute-only elements. *)
Lemma normalize_idempotent_scalar_free_witness :
  scalar_free sample_attribute_tree = true
  /\ normalizeToXml2jsFormat (normalizeToXml2jsFormat sample_attribute_tree)
     = normalizeToXml2jsFormat sample_attribute_tree.
Proof.
  split; [reflexivity|].
  exact (proj1 (normalize_idempotent_scalar_free sample_attribute_tree
                  eq_refl)).
Defined.

(** Conversely, on a tree whose objects have plain keys, a second run
    changes nothing only if the tree holds no scalar outside attribute
    records. *)
Lemma normalize_idempotent_only_scalar_free (t : value) :
  plain_keys t = true ->
  normalizeToXml2jsFormat (normalizeToXml2jsFormat t)
  = normalizeToXml2jsFormat t ->
  scalar_free t = true.
Proof.
  induction t as [| |s|items IH|entries IH] using value_ind;
    intros Hd Hfix; try reflexivity.
  - discriminate Hfix.
  - simpl in *. injection Hfix as Hfix. rewrite map_map in Hfix.
    apply forallb_forall. intros x Hx. rewrite Forall_forall in IH.
    apply IH; [assumption | exact (forallb_In _ _ _ Hd Hx) |].
    exact (proj1 map_ext_in_iff Hfix x Hx).
  - cbn [plain_keys scalar_free] in *.
    apply andb_true_iff in Hd. destruct Hd as [Hkeys Hd].
    rewrite (normalize_object _ Hkeys) in Hfix.
    rewrite normalize_object in Hfix by now rewrite keys_members.
    injection Hfix as Hfix. unfold members in Hfix. rewrite map_map in Hfix.
    apply forallb_forall. intros [k x] Hin.
    destruct (String.eqb k attrs_key) eqn:Hk; [reflexivity|].
    pose proof (proj1 map_ext_in_iff Hfix _ Hin) as Hx.
    cbn [fst snd] in Hx. injection Hx as Hx.
    rewrite Forall_forall in IH. specialize (IH _ Hin). cbn [snd] in IH.
    pose proof (forallb_In _ _ _ Hd Hin) as Hdx. cbn beta iota in Hdx.
    rewrite Hk in Hdx. specialize (IH Hdx).
    unfold normalize_member in Hx. rewrite Hk in Hx.
    destruct x as [| |s|items|sub]; try reflexivity.
    + discriminate Hx.
    + apply IH. cbn [normalizeToXml2jsFormat]. exact Hx.
    + apply IH. remember (normalizeToXml2jsFormat (VObj sub)) as r.
      cbn [map] in Hx. now injection Hx.
Qed.

(** *** Termination *)

Lemma map_option_Some {A B : Type} (f : A -> option B) (g : A -> B)
      (l : list A) :
  (forall x, In x l -> f x = Some (g x)) ->
  map_option f l = Some (map g l).
Proof.
  induction l as [|x rest IH]; intros H; simpl.
  - reflexivity.
  - rewrite (H x) by now left.
    rewrite IH; [reflexivity|]. intros y Hy. apply H. now right.
Qed.

Lemma depth_le_list_max {A : Type} (f : A -> nat) (l : list A) (x : A) :
  In x l -> f x <= list_max (map f l).
Proof.
  intros Hin.
  assert (H : Forall (fun k => k <= list_max (map f l)) (map f l))
    by now apply list_max_le.
  rewrite Forall_forall in H. apply H. now apply in_map.
Qed.

Lemma child_depth (x t : value) : child x t -> depth x < depth t.
Proof.
  intros [y items Hin|k y entries Hin]; simpl.
  - apply Nat.lt_succ_r. now apply depth_le_list_max.
  - apply Nat.lt_succ_r.
    exact (depth_le_list_max (fun e => depth (snd e)) entries (k, y) Hin).
Qed.

Lemma subterm_depth (x t : value) : subterm x t -> depth x < depth t.
Proof.
  induction 1 as [x t Hc|x y t _ IH Hc].
  - now apply child_depth.
  - apply child_depth in Hc. lia.
Qed.

(** The strict-subterm order has no infinite descending chain. *)
Lemma subterm_well_founded : well_founded subterm.
Proof.
  apply (well_founded_lt_compat _ depth). intros x y. apply subterm_depth.
Qed.

(** Every recursive call is made on a strict subterm of the argument: an
    item of the array, a property value of the object, or an item of a
    property value that is an array. *)
Lemma recursive_calls_subterm (t x : value) :
  In x (recursive_calls t) -> subterm x t.
Proof.
  destruct t as [| |s|items|entries]; simpl; try contradiction.
  - intros Hin. apply subterm_child. now constructor.
  - intros Hin. apply in_flat_map in Hin. destruct Hin as [[k v] [Hkv Hin]].
    destruct (String.eqb k attrs_key); [contradiction|].
    destruct v as [| |s|items|sub]; simpl in Hin; try contradiction.
    + apply subterm_trans with (y := VArr items).
      * apply subterm_child. now constructor.
      * econstructor. eassumption.
    + destruct Hin as [<-|[]]. apply subterm_child. econstructor. eassumption.
Qed.

(** With more fuel than the tree is high, the bounded pass returns, and it
    returns the result of the pass. *)
Lemma normalize_fuel_enough (t : value) :
  forall fuel, depth t < fuel ->
  normalize_fuel fuel t = Some (normalizeToXml2jsFormat t).
Proof.
  induction t as [| |s|items IH|entries IH] using value_ind;
    intros [|fuel] Hlt; try lia; try reflexivity.
  - cbn [normalize_fuel normalizeToXml2jsFormat].
    rewrite (map_option_Some _ normalizeToXml2jsFormat); [reflexivity|].
    intros x Hx. rewrite Forall_forall in IH. apply IH; [assumption|].
    pose proof (child_depth x (VArr items) (child_item _ _ Hx)). lia.
  - rewrite normalize_object_loop. cbn [normalize_fuel]. unfold assign_all.
    assert (Hsub : forall e, In e entries -> depth (snd e) < fuel).
    { intros [k x] Hin.
      pose proof (child_depth x (VObj entries) (child_prop _ _ _ Hin)).
      cbn [snd]. lia. }
    clear Hlt. generalize (@nil (string * value)).
    induction entries as [|[k x] rest IHrest]; intros acc.
    + reflexivity.
    + cbn [fold_left fst snd].
      inversion IH as [|? ? IHx IHtl]; subst. cbn [snd] in IHx.
      assert (Hx : depth x < fuel) by (apply (Hsub (k, x)); now left).
      assert (Hstep :
        (if String.eqb k attrs_key then Some (obj_set k x acc)
         else
           match x with
           | VArr items =>
               option_map (fun r => obj_set k (VArr r) acc)
                 (map_option (normalize_fuel fuel) items)
           | VObj _ =>
               option_map (fun r => obj_set k (VArr [r]) acc)
                 (normalize_fuel fuel x)
           | VNull | VUndefined | VScalar _ =>
               Some (obj_set k (VArr [x]) acc)
           end) = Some (obj_set k (normalize_member k x) acc)).
      { unfold normalize_member.
        destruct (String.eqb k attrs_key); [reflexivity|].
        destruct x as [| |s|items|sub]; try reflexivity.
        - assert (Hs : depth (VArr items) < S fuel) by lia.
          specialize (IHx (S fuel) Hs).
          cbn [normalize_fuel normalizeToXml2jsFormat] in IHx.
          destruct (map_option (normalize_fuel fuel) items); [|discriminate].
          cbn [option_map] in *. now injection IHx as ->.
        - now rewrite (IHx fuel Hx). }
      rewrite Hstep. apply IHrest; [assumption|].
      intros e He. apply Hsub. now right.
Qed.

(** C10.  [normalizeToXml2jsFormat] is total on finite trees: run with a
    budget of nested calls that exceeds the height of the tree, the pass
    returns its result; and every recursive call it makes is on a strict
    subterm of its argument, an order without infinite descending chains. *)
Theorem normalize_total (t : value) (fuel : nat) :
  depth t < fuel ->
  normalize_fuel fuel t = Some (normalizeToXml2jsFormat t)
  /\ Forall (fun x => subterm x t /\ depth x < depth t) (recursive_calls t).
Proof.
  intros Hlt. split.
  - now apply normalize_fuel_enough.
  - apply Forall_forall. intros x Hx.
    apply recursive_calls_subterm in Hx. split; [assumption|].
    now apply subterm_depth.
Qed.

(** On the sample tree of a parsed document, of height 6. *)
Lemma normalize_total_witness :
  depth sample_parsed_tree < 7
  /\ normalize_fuel 7 sample_parsed_tree
     = Some (normalizeToXml2jsFormat sample_parsed_tree).
Proof.
  assert (H : depth sample_parsed_tree < 7) by (vm_compute; lia).
  split; [exact H|].
  exact (proj1 (normalize_total sample_parsed_tree 7 H)).
Defined.

End CanonFacts.

(** ** The Rust/WASM adapter *)

Module WasmFacts.
Import Js Wasm.

(** *** The constructor *)

Lemma assign_require_frame (h : host) (p : string) (a : adapter) :
  let a' := fst (assign_require h p a) in
  loads a' = loads a /\ calls a' = calls a /\ loadPromise a' = loadPromise a
  /\ probes a' = probes a ++ [p].
Proof.
  unfold assign_require. destruct (require h p); simpl; auto.
Qed.

(** The run of [loadWasm] from a fresh adapter, by the results of the three
    [require] calls. *)
Lemma probe_fresh (h : host) :
  probe h fresh =
  match require h (production_path h) with
  | Returns m => (set_wasm m (set_probes [production_path h] fresh), Returns tt)
  | Throws _ =>
      match require h (development_path h) with
      | Returns m =>
          (set_wasm m
             (set_probes [production_path h; development_path h] fresh),
           Returns tt)
      | Throws _ =>
          match require h sibling_path with
          | Returns m =>
              (set_wasm m (set_probes (candidates h) fresh), Returns tt)
          | Throws e => (set_probes (candidates h) fresh, Throws e)
          end
      end
  end.
Proof.
  unfold probe, assign_require.
  destruct (require h (production_path h)); [reflexivity|].
  cbn. destruct (require h (development_path h)); [reflexivity|].
  cbn. destruct (require h sibling_path); reflexivity.
Qed.

Lemma first_loadable_candidates (h : host) :
  first_loadable h (candidates h) =
  match require h (production_path h) with
  | Returns m => Returns m
  | Throws _ =>
      match require h (development_path h) with
      | Returns m => Returns m
      | Throws _ => require h sibling_path
      end
  end.
Proof.
  unfold candidates. cbn.
  destruct (require h (production_path h)); [reflexivity|].
  destruct (require h (development_path h)); [reflexivity|].
  destruct (require h sibling_path); reflexivity.
Qed.

Ltac by_requires h :=
  destruct (require h (production_path h)) as [[m|]|?] eqn:R1;
  [ | |
    destruct (require h (development_path h)) as [[m|]|?] eqn:R2;
    [ | | destruct (require h sibling_path) as [[m|]|?] eqn:R3 ] ].

Ltac by_module m :=
  destruct m as [[[?| |?]|] [?|]].

Lemma constructor_basics (h : host) :
  exists p, loads (constructor h) = [p]
            /\ loadPromise (constructor h) = Some 0
            /\ calls (constructor h) = [].
Proof.
  unfold constructor, loadWasm, loadWasm_run. cbn [wasm fresh].
  rewrite probe_fresh.
  by_requires h; try by_module m; cbn; eexists; repeat split.
Qed.

Lemma constructor_wasm (h : host) :
  wasm (constructor h) =
  match first_loadable h (candidates h) with
  | Returns m => m
  | Throws _ => None
  end.
Proof.
  rewrite first_loadable_candidates.
  unfold constructor, loadWasm, loadWasm_run. cbn [wasm fresh].
  rewrite probe_fresh.
  by_requires h; try by_module m; reflexivity.
Qed.

(** The settled load is the failure that the host causes, or success. *)
Lemma final_load_spec (h : host) :
  final_load h =
  match load_failure h with
  | Some e => Failed e
  | None => Fulfilled
  end.
Proof.
  unfold load_failure. rewrite first_loadable_candidates.
  unfold final_load, loadWasm_resume, check_parse, constructor, loadWasm,
    loadWasm_run.
  cbn [wasm fresh]. rewrite probe_fresh.
  by_requires h; try by_module m; reflexivity.
Qed.

Lemma final_load_settled (h : host) : final_load h <> Pending.
Proof.
  rewrite final_load_spec. destruct (load_failure h); discriminate.
Qed.

(** After a successful load, [parse] runs the [parse] function of the
    loaded module. *)
Lemma parse_finish_loaded (h : host) (xml : string) :
  parse_finish (constructor h) xml =
  match loaded_parse h with
  | Some f => settle (f xml)
  | None => Rejected not_available_error
  end.
Proof.
  unfold parse_finish, loaded_parse. rewrite constructor_wasm.
  destruct (first_loadable h (candidates h)) as [[m|]|e]; reflexivity.
Qed.

Lemma load_success_has_parse (h : host) :
  load_failure h = None -> exists f, loaded_parse h = Some f.
Proof.
  unfold load_failure, loaded_parse.
  destruct (first_loadable h (candidates h)) as [[m|]|e]; try discriminate.
  destruct (mod_default m) as [[?| |?]|]; try discriminate;
    (destruct (mod_parse m) as [f|]; [intros _; now exists f | discriminate]).
Qed.

(** *** The invariant *)

Lemma In_update_nth {A : Type} (n : nat) (x y : A) (l : list A) :
  In y (update_nth n x l) -> y = x \/ In y l.
Proof.
  revert n. induction l as [|z rest IH]; intros n; simpl.
  - intros [].
  - destruct n as [|n]; simpl.
    + intros [H|H]; [now left | right; now right].
    + intros [H|H]; [right; now left|].
      destruct (IH _ H) as [H'|H']; [now left | right; now right].
Qed.

Lemma Forall_update_nth {A : Type} (P : A -> Prop) (n : nat) (x : A)
      (l : list A) :
  P x -> Forall P l -> Forall P (update_nth n x l).
Proof.
  intros Hx Hl. apply Forall_forall. intros y Hy.
  apply In_update_nth in Hy. destruct Hy as [->|Hy]; [assumption|].
  rewrite Forall_forall in Hl. now apply Hl.
Qed.

Lemma parse_finish_same_module (a b : adapter) (xml : string) :
  wasm a = wasm b -> parse_finish a xml = parse_finish b xml.
Proof. unfold parse_finish. now intros ->. Qed.

Lemma loadWasm_resume_same_module (a b : adapter) :
  wasm a = wasm b -> loadWasm_resume a = loadWasm_resume b.
Proof. unfold loadWasm_resume, check_parse. now intros ->. Qed.

Lemma invariant_constructor (h : host) : invariant h (constructor h).
Proof.
  destruct (constructor_basics h) as [p [Hl [Hp Hc]]].
  split; [reflexivity|]. split; [reflexivity|].
  exists p. split; [assumption|]. split; [now left|].
  split; [rewrite Hc; constructor|].
  destruct p as [| |e].
  - left. now split.
  - right. split; [discriminate|]. unfold final_load. now rewrite Hl.
  - right. split; [discriminate|]. unfold final_load. now rewrite Hl.
Qed.

Lemma invariant_step (h : host) (a : adapter) (ev : event) :
  invariant h a -> invariant h (step a ev).
Proof.
  intros (Hw & Hpr & p & Hl & Hlp & Hcalls & Hp).
  destruct ev as [xml|q|c]; cbn [step].
  - (* a caller invokes parse *)
    unfold parse_begin.
    destruct Hlp as [Hlp|[Hlp ->]]; rewrite Hlp; cbn.
    + split; [assumption|]. split; [assumption|].
      exists p. repeat split; auto.
      apply Forall_app. split; [assumption|].
      constructor; [reflexivity | constructor].
    + split; [assumption|]. split; [assumption|].
      exists Fulfilled. repeat split; auto.
      apply Forall_app. split; [assumption|].
      constructor; [|constructor].
      unfold call_ok. cbn. now apply parse_finish_same_module.
  - (* the initializer settles *)
    rewrite Hl.
    destruct q as [|q]; cbn [nth_error];
      [|destruct q; cbn; now repeat (split; [assumption|]); exists p].
    destruct p as [| |e];
      try (now repeat (split; [assumption|]); eexists; eauto).
    destruct Hp as [[_ Hc]|[Hne _]]; [|congruence].
    cbn. split; [assumption|]. split; [assumption|].
    exists (loadWasm_resume a). split; [reflexivity|].
    assert (Hfin : loadWasm_resume a = final_load h).
    { unfold final_load. rewrite Hc. now apply loadWasm_resume_same_module. }
    split.
    { destruct Hlp as [Hlp|[_ Hlp]]; [now left | discriminate]. }
    split.
    + apply Forall_forall. intros x Hx. rewrite Forall_forall in Hcalls.
      specialize (Hcalls x Hx). unfold call_ok in *.
      destruct (call_status_of x); [assumption | contradiction].
    + right. rewrite Hfin. split; [apply final_load_settled | reflexivity].
  - (* a suspended call resumes *)
    unfold parse_resume.
    destruct (nth_error (calls a) c) as [[xml [q|r]]|] eqn:Hc;
      try (now repeat (split; [assumption|]); exists p).
    assert (Hq : q = 0).
    { apply nth_error_In in Hc. rewrite Forall_forall in Hcalls.
      exact (Hcalls _ Hc). }
    subst q. rewrite Hl. cbn [nth_error].
    destruct p as [| |e]; cbn.
    + repeat (split; [assumption|]). now exists Pending.
    + split; [assumption|]. split; [assumption|].
      exists Fulfilled. split; [assumption|]. split; [right; now split|].
      split; [|assumption].
      apply Forall_update_nth; [|assumption].
      unfold call_ok. cbn. now apply parse_finish_same_module.
    + split; [assumption|]. split; [assumption|].
      exists (Failed e). split; [assumption|]. split; [assumption|].
      split; [|assumption].
      apply Forall_update_nth; [|assumption].
      reflexivity.
Qed.

(** The invariant holds whatever happens after the construction. *)
Lemma invariant_run (h : host) (evs : list event) : invariant h (run h evs).
Proof.
  unfold run. generalize (invariant_constructor h).
  generalize (constructor h) as a. induction evs as [|ev rest IH]; intros a Ha.
  - exact Ha.
  - cbn [fold_left]. apply IH. now apply invariant_step.
Qed.

(** *** Probing *)

Lemma constructor_probes (h : host) :
  probes (constructor h) =
  match require h (production_path h) with
  | Returns _ => [production_path h]
  | Throws _ =>
      match require h (development_path h) with
      | Returns _ => [production_path h; development_path h]
      | Throws _ => candidates h
      end
  end.
Proof.
  unfold constructor, loadWasm, loadWasm_run. cbn [wasm fresh].
  rewrite probe_fresh.
  by_requires h; try by_module m; reflexivity.
Qed.

(** C5.  The load probes the module locations in this order: the production
    location under [__dirname], the development location under
    [process.cwd()], the sibling module.  At every moment the locations
    probed are a prefix of that list; every location before the last probed
    one failed to load; when the last probed one loaded, its exports are the
    module in use and no later location was or is attempted; all three were
    probed only when the first two failed. *)
Theorem probes_in_order (h : host) (evs : list event) :
  let a := run h evs in
  exists tried rest,
    candidates h = tried ++ rest
    /\ probes a = tried
    /\ hd_error tried = Some (production_path h)
    /\ (forall p, In p (removelast tried) -> exists e, require h p = Throws e)
    /\ match require h (last tried "") with
       | Returns m => wasm a = m
       | Throws _ => rest = [] /\ wasm a = None
       end.
Proof.
  cbv zeta. destruct (invariant_run h evs) as (-> & -> & _).
  rewrite constructor_probes, constructor_wasm, first_loadable_candidates.
  destruct (require h (production_path h)) as [m1|e1] eqn:R1.
  - exists [production_path h], [development_path h; sibling_path].
    cbn. rewrite R1. repeat split. intros p [].
  - destruct (require h (development_path h)) as [m2|e2] eqn:R2.
    + exists [production_path h; development_path h], [sibling_path].
      cbn. rewrite R2. repeat split.
      intros p [<-|[]]. now exists e1.
    + exists (candidates h), []. cbn.
      destruct (require h sibling_path) as [m3|e3] eqn:R3; repeat split;
        intros p [<-|[<-|[]]]; eauto.
Qed.

(** *** One load, started by the constructor *)

(** C4, as stated, fails: the load is not lazy.  On a host with the module
    at the development location, the constructor has probed two locations
    and created the load promise before any call of [parse]. *)
Lemma load_not_lazy : ~ lazy_load host_with_dev_module.
Proof.
  intros Hlazy. destruct (Hlazy [] eq_refl) as [Hloads _].
  cbv in Hloads. discriminate Hloads.
Qed.

Example constructor_has_loaded :
  let a := constructor host_with_dev_module in
  calls a = []
  /\ loads a = [Pending]
  /\ probes a = ["/opt/companion/dist/xml/../bench/wasm/pkg/vmix_xml.js";
                 "/opt/companion/src/bench/wasm/pkg/vmix_xml.js"].
Proof. cbv. repeat split. Qed.

Lemma run_loads (h : host) (evs : list event) :
  exists p, loads (run h evs) = [p]
            /\ Forall (call_ok h p) (calls (run h evs))
            /\ (p = Fulfilled -> final_load h = Fulfilled)
            /\ (forall e, p = Failed e -> final_load h = Failed e).
Proof.
  destruct (invariant_run h evs) as (_ & _ & p & Hl & _ & Hc & Hp).
  exists p. repeat split; try assumption.
  - intros ->. destruct Hp as [[Hp _]|[_ Hp]]; [discriminate | now symmetry].
  - intros e ->. destruct Hp as [[Hp _]|[_ Hp]]; [discriminate | now symmetry].
Qed.

Lemma run_snoc (h : host) (evs : list event) (ev : event) :
  run h (evs ++ [ev]) = step (run h evs) ev.
Proof. unfold run. now rewrite fold_left_app. Qed.

Lemma loadWasm_resume_settled (a : adapter) : loadWasm_resume a <> Pending.
Proof.
  unfold loadWasm_resume, check_parse.
  destruct (wasm a) as [[[[?| |?]|] [?|]]|]; discriminate.
Qed.

Lemma nth_error_update_nth {A : Type} (n : nat) (x y : A) (l : list A) :
  nth_error l n = Some y -> nth_error (update_nth n x l) n = Some x.
Proof.
  revert n. induction l as [|z rest IH]; intros [|n]; simpl;
    try discriminate; auto.
Qed.

(** A call suspended on the settled load finishes when it resumes: with the
    error of the load, or by running [parse] of the loaded module. *)
Lemma resume_settles (h : host) (evs : list event) (c : nat) (xml : string)
      (q : nat) :
  nth_error (calls (run h evs)) c
  = Some {| call_xml := xml; call_status_of := Awaiting q |} ->
  match nth_error (loads (run h evs)) 0 with
  | Some Fulfilled =>
      nth_error (calls (step (run h evs) (ParseResumed c))) c
      = Some {| call_xml := xml;
                call_status_of := Settled (parse_finish (constructor h) xml) |}
  | Some (Failed e) =>
      nth_error (calls (step (run h evs) (ParseResumed c))) c
      = Some {| call_xml := xml; call_status_of := Settled (Rejected e) |}
  | _ => True
  end.
Proof.
  intros Hc.
  destruct (invariant_run h evs) as (Hw & _ & p & Hl & _ & Hcalls & _).
  assert (Hq : q = 0).
  { rewrite Forall_forall in Hcalls.
    exact (Hcalls _ (nth_error_In _ _ Hc)). }
  subst q. rewrite Hl. cbn [nth_error step]. unfold parse_resume.
  rewrite Hc, Hl. cbn [nth_error].
  destruct p as [| |e]; [exact I | |].
  - cbn [calls set_calls set_loadPromise].
    rewrite (nth_error_update_nth _ _ _ _ Hc). do 3 f_equal.
    apply parse_finish_same_module. exact Hw.
  - cbn [calls set_calls]. now rewrite (nth_error_update_nth _ _ _ _ Hc).
Qed.

(** C4, amended.  The load is memoized but started by the constructor, not
    by the first call of [parse]: when the constructor returns, before any
    call of [parse], one load has been started; whatever happens
    afterwards, there is still exactly that one load and no further
    location is probed, so no call of [parse] starts a load; a call that is
    suspended awaits that load; while the load is in flight every call made
    so far is suspended on it; and all callers observe the one outcome of
    the load: its error when it failed, the [parse] function of the loaded
    module when it succeeded, also for a call that resumes from its wait. *)
Theorem load_once_at_construction (h : host) (evs : list event) :
  let a := run h evs in
  calls (constructor h) = []
  /\ List.length (loads (constructor h)) = 1
  /\ List.length (loads a) = 1
  /\ probes a = probes (constructor h)
  /\ (forall c q, In c (calls a) -> call_status_of c = Awaiting q -> q = 0)
  /\ (nth_error (loads a) 0 = Some Pending ->
      forall c, In c (calls a) -> call_status_of c = Awaiting 0)
  /\ (forall e, nth_error (loads a) 0 = Some (Failed e) ->
      forall c r, In c (calls a) -> call_status_of c = Settled r ->
                  r = Rejected e)
  /\ (nth_error (loads a) 0 = Some Fulfilled ->
      exists f, loaded_parse h = Some f
                /\ forall c r, In c (calls a) ->
                               call_status_of c = Settled r ->
                               r = settle (f (call_xml c)))
  /\ (forall c xml q f,
        nth_error (loads a) 0 = Some Fulfilled ->
        loaded_parse h = Some f ->
        nth_error (calls a) c
        = Some {| call_xml := xml; call_status_of := Awaiting q |} ->
        nth_error (calls (step a (ParseResumed c))) c
        = Some {| call_xml := xml;
                  call_status_of := Settled (settle (f xml)) |}).
Proof.
  cbv zeta.
  assert (Hresume : forall c xml q f,
    nth_error (loads (run h evs)) 0 = Some Fulfilled ->
    loaded_parse h = Some f ->
    nth_error (calls (run h evs)) c
    = Some {| call_xml := xml; call_status_of := Awaiting q |} ->
    nth_error (calls (step (run h evs) (ParseResumed c))) c
    = Some {| call_xml := xml;
              call_status_of := Settled (settle (f xml)) |}).
  { intros c xml q f Hful Hf Hc.
    pose proof (resume_settles h evs c xml q Hc) as Hr.
    rewrite Hful in Hr. rewrite Hr, parse_finish_loaded. now rewrite Hf. }
  destruct (constructor_basics h) as [p0 [Hl0 [_ Hc0]]].
  destruct (run_loads h evs) as [p [Hl [Hcalls [Hful Hfail]]]].
  destruct (invariant_run h evs) as (_ & Hpr & _).
  rewrite Forall_forall in Hcalls. rewrite Hl0, Hl. cbn [nth_error List.length].
  repeat split; try assumption.
  - intros c q Hin Hs. specialize (Hcalls c Hin). unfold call_ok in Hcalls.
    now rewrite Hs in Hcalls.
  - intros [= ->] c Hin. specialize (Hcalls c Hin). unfold call_ok in Hcalls.
    destruct (call_status_of c); [now subst | contradiction].
  - intros e [= ->] c r Hin Hs. specialize (Hcalls c Hin).
    unfold call_ok in Hcalls. now rewrite Hs in Hcalls.
  - intros [= ->]. specialize (Hful eq_refl).
    rewrite final_load_spec in Hful.
    destruct (load_failure h) eqn:Hlf; [discriminate|].
    destruct (load_success_has_parse h Hlf) as [f Hf].
    exists f. split; [assumption|].
    intros c r Hin Hs. specialize (Hcalls c Hin). unfold call_ok in Hcalls.
    rewrite Hs in Hcalls. rewrite Hcalls, parse_finish_loaded. now rewrite Hf.
  - intros c xml q f [= ->] Hf Hc. apply (Hresume c xml q f); [|assumption..].
    now rewrite Hl.
Qed.

(** *** An adapter whose module cannot be loaded *)

Lemma load_failure_descriptive (h : host) (e : string) :
  load_failure h = Some e ->
  e = no_parse_error \/ exists msg, e = load_error msg.
Proof.
  unfold load_failure.
  destruct (first_loadable h (candidates h)) as [[m|]|e0].
  - destruct (mod_default m) as [[e1| |e1]|]; try destruct (mod_parse m);
      intros [= <-]; eauto.
  - intros [= <-]. now left.
  - intros [= <-]. eauto.
Qed.

(** On a host where the adapter cannot be made available, the load ends
    rejected once the initializer has settled... *)
Lemma failed_load_after_init (h : host) (e : string) (evs : list event) :
  load_failure h = Some e ->
  loads (run h (evs ++ [InitSettled 0])) = [Failed e].
Proof.
  intros He. pose proof (final_load_spec h) as Hspec. rewrite He in Hspec.
  destruct (run_loads h evs) as [p [Hl _]].
  destruct (run_loads h (evs ++ [InitSettled 0]))
    as [p' [Hl' [_ [Hful' Hfail']]]].
  rewrite Hl'. f_equal. destruct p' as [| |e'].
  - exfalso. rewrite run_snoc in Hl'. cbn [step] in Hl'.
    rewrite Hl in Hl'. cbn [nth_error] in Hl'.
    destruct p; cbn in Hl'; try congruence.
    injection Hl' as Hl'. now apply loadWasm_resume_settled in Hl'.
  - specialize (Hful' eq_refl). congruence.
  - specialize (Hfail' e' eq_refl). congruence.
Qed.

(** ... and [this.loadPromise] is never set to null, so that a call of
    [parse] always suspends on the load. *)
Lemma unavailable_call_suspends (h : host) (e : string) (evs : list event)
      (xml : string) :
  load_failure h = Some e ->
  calls (run h (evs ++ [ParseCalled xml]))
  = calls (run h evs)
    ++ [{| call_xml := xml; call_status_of := Awaiting 0 |}].
Proof.
  intros He. pose proof (final_load_spec h) as Hspec. rewrite He in Hspec.
  destruct (invariant_run h evs) as (_ & _ & p & _ & Hlp & _ & Hp).
  rewrite run_snoc. cbn [step]. unfold parse_begin.
  destruct Hlp as [->|[_ ->]]; [reflexivity|].
  destruct Hp as [[Hp _]|[_ Hp]]; congruence.
Qed.

(** C6.  When the adapter cannot be made available (no location loads, the
    initializer fails, or the module has no [parse] function), the load
    fails with its own error: the message is that of the missing [parse]
    function or the load-failure message with the cause; the load promise is
    never fulfilled and is rejected with that error once the initializer has
    settled.  Every call of [parse] then suspends on the load, whenever it
    is made, and is rejected with the error of the load when it resumes
    after the initializer has settled; every finished call is rejected with
    that error, none returns a result.  On any host, a call of [parse]
    resolves only when a module with a [parse] function was loaded, and then
    with what that function returns. *)
Theorem unavailable_adapter_rejects (h : host) (evs : list event) :
  let a := run h evs in
  (forall e, load_failure h = Some e ->
     (e = no_parse_error \/ exists msg, e = load_error msg)
     /\ nth_error (loads a) 0 <> Some Fulfilled
     /\ nth_error (loads (run h (evs ++ [InitSettled 0]))) 0 = Some (Failed e)
     /\ (forall c r, In c (calls a) -> call_status_of c = Settled r ->
                     r = Rejected e)
     /\ (forall c xml q,
           nth_error (loads a) 0 = Some (Failed e) ->
           nth_error (calls a) c
           = Some {| call_xml := xml; call_status_of := Awaiting q |} ->
           nth_error (calls (step a (ParseResumed c))) c
           = Some {| call_xml := xml;
                     call_status_of := Settled (Rejected e) |})
     /\ (forall xml,
           calls (run h (evs ++ [ParseCalled xml]))
           = calls a
             ++ [{| call_xml := xml; call_status_of := Awaiting 0 |}])
     /\ (forall xml,
           nth_error
             (calls (run h (evs ++ [ParseCalled xml; InitSettled 0;
                                    ParseResumed (List.length (calls a))])))
             (List.length (calls a))
           = Some {| call_xml := xml;
                     call_status_of := Settled (Rejected e) |}))
  /\ (forall c v, In c (calls a) ->
                  call_status_of c = Settled (Resolved v) ->
                  load_failure h = None
                  /\ exists f, loaded_parse h = Some f
                               /\ f (call_xml c) = Returns v).
Proof.
  cbv zeta.
  destruct (run_loads h evs) as [p [Hl [Hcalls [Hful Hfail]]]].
  rewrite Forall_forall in Hcalls.
  pose proof (final_load_spec h) as Hspec.
  split.
  - intros e He. rewrite He in Hspec.
    split; [now apply (load_failure_descriptive h)|].
    rewrite Hl. cbn [nth_error].
    split; [intros [= ->]; specialize (Hful eq_refl); congruence|].
    split.
    { now rewrite (failed_load_after_init h e evs He). }
    split.
    { intros c r Hin Hs. specialize (Hcalls c Hin). unfold call_ok in Hcalls.
      rewrite Hs in Hcalls. destruct p as [| |e'].
      - contradiction.
      - specialize (Hful eq_refl). congruence.
      - specialize (Hfail e' eq_refl). congruence. }
    split.
    { intros c xml q [= ->] Hc.
      pose proof (resume_settles h evs c xml q Hc) as Hr.
      rewrite Hl in Hr. exact Hr. }
    split.
    { intros xml. now apply unavailable_call_suspends with (e := e). }
    intros xml.
    set (n := List.length (calls (run h evs))).
    set (call := {| call_xml := xml; call_status_of := Awaiting 0 |}).
    assert (Hc : nth_error
                   (calls (run h ((evs ++ [ParseCalled xml])
                                  ++ [InitSettled 0]))) n
                 = Some call).
    { rewrite run_snoc. cbn [step].
      assert (Hsame : forall b q,
                 calls (match nth_error (loads b) q with
                        | Some Pending =>
                            set_loads
                              (update_nth q (loadWasm_resume b) (loads b)) b
                        | _ => b
                        end) = calls b).
      { intros b q. destruct (nth_error (loads b) q) as [[| |?]|];
          reflexivity. }
      rewrite Hsame, (unavailable_call_suspends h e evs xml He).
      rewrite nth_error_app2 by (unfold n; lia).
      unfold n. now rewrite Nat.sub_diag. }
    pose proof (resume_settles h _ n xml 0 Hc) as Hr.
    rewrite (failed_load_after_init h e (evs ++ [ParseCalled xml]) He) in Hr.
    cbn [nth_error] in Hr. rewrite <- run_snoc in Hr.
    rewrite <- !app_assoc in Hr. exact Hr.
  - intros c v Hin Hs. specialize (Hcalls c Hin). unfold call_ok in Hcalls.
    rewrite Hs in Hcalls. destruct p as [| |e'].
    + contradiction.
    + specialize (Hful eq_refl). rewrite Hful in Hspec.
      destruct (load_failure h) eqn:Hlf; [discriminate|].
      split; [reflexivity|].
      rewrite parse_finish_loaded in Hcalls.
      destruct (loaded_parse h) as [f|]; [|discriminate].
      exists f. split; [reflexivity|].
      unfold settle in Hcalls. destruct (f (call_xml c)); congruence.
    + discriminate.
Qed.

(** On a host without the module, a call of [parse] is rejected with the
    load error. *)
Example parse_without_module :
  let a := run host_without_module [ParseCalled "<vmix/>"; ParseResumed 0] in
  loads a = [Failed (load_error "Cannot find module './vmix_xml_wasm'")]
  /\ map call_status_of (calls a)
     = [Settled (Rejected (load_error "Cannot find module './vmix_xml_wasm'"))].
Proof. cbv. split; reflexivity. Qed.

(** Two calls made while the load is in flight, a third one after it: one
    load, one module, the same result. *)
Example parse_while_loading :
  let a := run host_with_dev_module
               [ParseCalled "<vmix/>"; ParseCalled "<vmix/>"; InitSettled 0;
                ParseResumed 1; ParseResumed 0; ParseCalled "<vmix/>"] in
  loads a = [Fulfilled]
  /\ loadPromise a = None
  /\ map call_status_of (calls a)
     = [Settled (Resolved sample_tree); Settled (Resolved sample_tree);
        Settled (Resolved sample_tree)].
Proof. cbv. repeat split. Qed.

End WasmFacts.

(** ** The fast-xml-parser adapters *)

Module FxpFacts.
Import Js FastXmlParserLib.

(** C7.  The adapter of [fxpAdapter.ts] is the plain library adapter
    followed by the normalization pass: both are constructed over the same
    parser options, and for every input the promise of the normalizing
    [parse] settles as that of the plain [parse] with
    [normalizeToXml2jsFormat] applied to the tree (an exception of the
    library rejects both alike). *)
Theorem normalizing_adapter_refines_plain (lib_parse : parse_method)
        (xml : string) :
  Fxp.parser Fxp.constructor = FxpPlain.parser FxpPlain.constructor
  /\ Fxp.parse lib_parse Fxp.constructor xml
     = outcome_map Canon.normalizeToXml2jsFormat
         (FxpPlain.parse lib_parse FxpPlain.constructor xml).
Proof.
  split; [reflexivity|].
  unfold Fxp.parse, FxpPlain.parse.
  change (Fxp.parser Fxp.constructor)
    with (FxpPlain.parser FxpPlain.constructor).
  destruct (lib_parse (FxpPlain.parser FxpPlain.constructor) xml);
    reflexivity.
Qed.

(** Whatever the library returns, the tree that the normalizing adapter
    hands over is canonical and its objects have plain keys. *)
Lemma normalizing_adapter_output (lib_parse : parse_method) (xml : string)
      (v : value) :
  Fxp.parse lib_parse Fxp.constructor xml = Resolved v ->
  Canon.is_canonical v = true /\ Canon.plain_keys v = true.
Proof.
  unfold Fxp.parse.
  destruct (lib_parse (Fxp.parser Fxp.constructor) xml); [|discriminate].
  intros [= <-]. split.
  - apply CanonFacts.output_canonical.
  - apply CanonFacts.normalize_plain_keys.
Qed.

(** The xml2js adapter hands over the tree of its library as it is.  So the
    two adapters can only agree on an input where that tree is already
    canonical. *)
Lemma adapters_agree_only_on_canonical
      (parseStringPromise : Xml2js.parse_method) (lib_parse : parse_method)
      (xml : string) (v : value) :
  Xml2js.parse parseStringPromise xml = Resolved v ->
  Fxp.parse lib_parse Fxp.constructor xml = Resolved v ->
  parseStringPromise Xml2js.parserOptions xml = Resolved v
  /\ Canon.is_canonical v = true.
Proof.
  intros Ha Hb. split; [exact Ha|].
  exact (proj1 (normalizing_adapter_output lib_parse xml v Hb)).
Qed.

End FxpFacts.

(** ** Further properties of the normalization pass *)

Module CanonLaws.
Import Js Canon JsFacts CanonFacts.

(** *** Content is kept *)

Lemma flat_map_ext_in {A B : Type} (f g : A -> list B) (l : list A) :
  (forall a, In a l -> f a = g a) -> flat_map f l = flat_map g l.
Proof.
  induction l as [|a rest IH]; intros H; simpl.
  - reflexivity.
  - rewrite (H a) by now left. f_equal. apply IH.
    intros b Hb. apply H. now right.
Qed.

Lemma flat_map_map {A B C : Type} (f : B -> list C) (g : A -> B)
      (l : list A) :
  flat_map f (map g l) = flat_map (fun a => f (g a)) l.
Proof.
  induction l as [|a rest IH]; simpl; [reflexivity | now rewrite IH].
Qed.

(** X1.  The pass keeps the content of a tree whose objects have plain keys
    (distinct, none of them [__proto__]): the leaves of the output ([null],
    [undefined] and primitives, those of attribute records included) are the
    leaves of the input, in the same order; none is lost, added, changed or
    moved. *)
Theorem normalize_keeps_leaves (t : value) :
  plain_keys t = true ->
  leaves (normalizeToXml2jsFormat t) = leaves t.
Proof.
  induction t as [| |s|items IH|entries IH] using value_ind;
    intros Hd; try reflexivity.
  - cbn [normalizeToXml2jsFormat leaves]. rewrite flat_map_map.
    apply flat_map_ext_in. intros x Hx. rewrite Forall_forall in IH.
    apply IH; [assumption|]. cbn [plain_keys] in Hd.
    exact (forallb_In _ _ _ Hd Hx).
  - cbn [plain_keys] in Hd. apply andb_true_iff in Hd.
    destruct Hd as [Hkeys Hd].
    rewrite (normalize_object _ Hkeys). cbn [leaves]. unfold members.
    rewrite flat_map_map. apply flat_map_ext_in. intros [k x] Hin.
    cbn [fst snd]. unfold normalize_member.
    destruct (String.eqb k attrs_key) eqn:Hk; [reflexivity|].
    rewrite Forall_forall in IH. specialize (IH _ Hin). cbn [snd] in IH.
    pose proof (forallb_In _ _ _ Hd Hin) as Hx. cbn beta iota in Hx.
    rewrite Hk in Hx. specialize (IH Hx).
    destruct x as [| |s|items|sub]; try reflexivity.
    + exact IH.
    + cbn [leaves flat_map]. rewrite app_nil_r. exact IH.
Qed.

(** On the sample tree of a parsed document. *)
Lemma normalize_keeps_leaves_witness :
  plain_keys sample_parsed_tree = true
  /\ leaves (normalizeToXml2jsFormat sample_parsed_tree)
     = [str "27"; str "1"; str "Cam1"; str "2"; str "Cam2"; num 1].
Proof.
  split; [reflexivity|].
  exact (normalize_keeps_leaves sample_parsed_tree eq_refl).
Defined.

(** *** The trees that the pass leaves unchanged *)

(** X2.  The pass returns its argument unchanged exactly on the trees that
    are canonical, hold no scalar outside attribute records and whose
    objects have plain keys: distinct, and none of them [__proto__]. *)
Theorem normalize_fixed_points (t : value) :
  normalizeToXml2jsFormat t = t
  <-> plain_keys t = true /\ is_canonical t = true
      /\ scalar_free t = true.
Proof.
  split.
  - intros Hfix.
    assert (Hd : plain_keys t = true).
    { rewrite <- Hfix. apply normalize_plain_keys. }
    split; [exact Hd|]. split.
    + rewrite <- Hfix. apply output_canonical.
    + apply normalize_idempotent_only_scalar_free; [exact Hd|].
      now rewrite !Hfix.
  - intros (Hd & Hc & Hs). now apply normalize_fixed.
Qed.

(** X3.  On a tree whose objects have plain keys (distinct, none of them
    [__proto__]), a second run of the pass changes the output of the first
    exactly when the tree holds a scalar outside attribute records. *)
Theorem second_run_exact (t : value) :
  plain_keys t = true ->
  (normalizeToXml2jsFormat (normalizeToXml2jsFormat t)
   = normalizeToXml2jsFormat t
   <-> scalar_free t = true).
Proof.
  intros Hd. split.
  - now apply normalize_idempotent_only_scalar_free.
  - intros Hs. apply normalize_fixed.
    + apply normalize_plain_keys.
    + apply output_canonical.
    + now apply normalize_scalar_free.
Qed.

(** On the sample tree of a parsed document, which holds text: the second
    run changes the output. *)
Lemma second_run_exact_witness :
  plain_keys sample_parsed_tree = true
  /\ normalizeToXml2jsFormat (normalizeToXml2jsFormat sample_parsed_tree)
     <> normalizeToXml2jsFormat sample_parsed_tree.
Proof.
  split; [reflexivity|].
  intros Hsame.
  pose proof (proj1 (second_run_exact sample_parsed_tree eq_refl) Hsame)
    as Hs.
  discriminate Hs.
Defined.

(** *** One child or a list of one *)

(** X4.  Under a key other than ["$"], a single child that is an object,
    [null] or [undefined] is normalized like the one-element array of that
    child: the output does not tell one occurrence from a list of one. *)
Theorem single_child_as_singleton (before after : list (string * value))
        (key : string) (child : value) :
  String.eqb key attrs_key = false ->
  isArray child = false ->
  is_scalar child = false ->
  normalizeToXml2jsFormat (VObj (before ++ (key, child) :: after))
  = normalizeToXml2jsFormat (VObj (before ++ (key, VArr [child]) :: after)).
Proof.
  intros Hk Ha Hs. rewrite !normalize_object_loop. f_equal.
  unfold assign_all. rewrite !fold_left_app. cbn [fold_left fst snd].
  f_equal. f_equal. unfold normalize_member. rewrite Hk.
  destruct child as [| |s|items|sub]; try discriminate; reflexivity.
Qed.

(** On an element with one [input] child. *)
Lemma single_child_as_singleton_witness :
  normalizeToXml2jsFormat
    (VObj [("version", str "27");
           ("input", VObj [("$", VObj [("key", str "1")])])])
  = normalizeToXml2jsFormat
      (VObj [("version", str "27");
             ("input", VArr [VObj [("$", VObj [("key", str "1")])]])]).
Proof.
  exact (single_child_as_singleton
           [("version", str "27")] [] "input"
           (VObj [("$", VObj [("key", str "1")])])
           eq_refl eq_refl eq_refl).
Defined.

(** *** Text in the output *)

Lemma normalize_not_scalar (t : value) :
  is_scalar (normalizeToXml2jsFormat t) = false.
Proof. destruct t; reflexivity. Qed.

Lemma no_scalar_among_normalized (items : list value) :
  existsb is_scalar (map normalizeToXml2jsFormat items) = false.
Proof.
  induction items as [|x rest IH]; cbn [map existsb]; [reflexivity|].
  now rewrite normalize_not_scalar, IH.
Qed.

Lemma output_text_alone (t : value) :
  text_alone (normalizeToXml2jsFormat t) = true.
Proof.
  induction t as [| |s|items IH|entries IH] using value_ind;
    try reflexivity.
  - cbn [normalizeToXml2jsFormat text_alone].
    rewrite no_scalar_among_normalized. cbn [negb orb andb].
    apply forallb_forall. intros y Hy.
    apply in_map_iff in Hy. destruct Hy as [x [<- Hx]].
    rewrite Forall_forall in IH. now apply IH.
  - rewrite normalize_object_loop. cbn [text_alone].
    apply forallb_forall. intros [k y] Hin. apply assign_all_In in Hin.
    destruct Hin as [[]|[[k0 x] [Hin0 Heq]]]. cbn [fst snd] in Heq.
    injection Heq as -> ->.
    destruct (String.eqb k0 attrs_key) eqn:Hk; [reflexivity|].
    rewrite Forall_forall in IH. specialize (IH _ Hin0). cbn [snd] in IH.
    unfold normalize_member. rewrite Hk.
    destruct x as [| |s|items|sub]; try reflexivity.
    + exact IH.
    + remember (normalizeToXml2jsFormat (VObj sub)) as r.
      cbn [text_alone existsb forallb]. rewrite IH.
      now destruct (is_scalar r).
Qed.

Lemma text_alone_element_node (n t : value) :
  text_alone t = true -> element_node n t -> text_alone n = true.
Proof.
  intros Ht Hn.
  induction Hn as [t|y items t _ IH Hin|k y entries t _ IH Hin Hk].
  - exact Ht.
  - specialize (IH Ht). cbn [text_alone] in IH.
    apply andb_true_iff in IH. exact (forallb_In _ _ _ (proj2 IH) Hin).
  - specialize (IH Ht). cbn [text_alone] in IH.
    pose proof (forallb_In _ _ _ IH Hin) as Hy. cbn beta iota in Hy.
    apply String.eqb_neq in Hk. now rewrite Hk in Hy.
Qed.

(** X5.  In the output of the pass, text stands alone: an array among the
    element nodes that holds a scalar has exactly one item.  The pass never
    yields several scalars side by side in one array, and the output itself
    is never a scalar. *)
Theorem normalize_text_alone (t : value) :
  is_scalar (normalizeToXml2jsFormat t) = false
  /\ text_alone (normalizeToXml2jsFormat t) = true
  /\ forall items,
      element_node (VArr items) (normalizeToXml2jsFormat t) ->
      existsb is_scalar items = true ->
      List.length items = 1.
Proof.
  split; [apply normalize_not_scalar|].
  pose proof (output_text_alone t) as Ht. split; [exact Ht|].
  intros items Hn Hs.
  pose proof (text_alone_element_node _ _ Ht Hn) as Ha.
  cbn [text_alone] in Ha. rewrite Hs in Ha. cbn [negb orb] in Ha.
  apply andb_true_iff in Ha. now apply Nat.eqb_eq.
Qed.

(** *** Nesting *)

Lemma list_max_bound {A : Type} (f : A -> nat) (l : list A) (b : nat) :
  (forall x, In x l -> f x <= b) -> list_max (map f l) <= b.
Proof.
  intros H. apply list_max_le. apply Forall_forall. intros n Hn.
  apply in_map_iff in Hn. destruct Hn as [x [<- Hx]]. now apply H.
Qed.

(** X6.  The pass at most doubles the nesting of a tree, plus one level:
    the height of the output is at most twice the height of the input plus
    one. *)
Theorem normalize_depth_bound (t : value) :
  depth (normalizeToXml2jsFormat t) <= 2 * depth t + 1.
Proof.
  induction t as [| |s|items IH|entries IH] using value_ind;
    try (cbn; lia).
  - cbn [normalizeToXml2jsFormat depth]. rewrite map_map.
    assert (H : list_max (map (fun x => depth (normalizeToXml2jsFormat x))
                            items)
                <= 2 * list_max (map depth items) + 1).
    { apply list_max_bound. intros x Hx. rewrite Forall_forall in IH.
      pose proof (IH x Hx). pose proof (depth_le_list_max depth items x Hx).
      lia. }
    lia.
  - rewrite normalize_object_loop. cbn [depth].
    set (m := list_max (map (fun e => depth (snd e)) entries)).
    assert (H : list_max
                  (map (fun e => depth (snd e))
                       (assign_all normalize_member entries []))
                <= 2 * m + 2).
    { apply list_max_bound. intros [k y] Hin. apply assign_all_In in Hin.
      destruct Hin as [[]|[[k0 x] [Hin0 Heq]]]. cbn [fst snd] in Heq.
      injection Heq as -> ->. cbn [snd].
      rewrite Forall_forall in IH. specialize (IH _ Hin0). cbn [snd] in IH.
      pose proof (depth_le_list_max (fun e => depth (snd e)) entries
                                    (k0, x) Hin0) as Hx.
      cbn [snd] in Hx. fold m in Hx.
      unfold normalize_member.
      destruct (String.eqb k0 attrs_key); [lia|].
      destruct x as [| |s|items|sub].
      - cbn. lia.
      - cbn. lia.
      - cbn. lia.
      - change (depth (normalizeToXml2jsFormat (VArr items)) <= 2 * m + 2).
        lia.
      - remember (normalizeToXml2jsFormat (VObj sub)) as r.
        cbn [depth map list_max fold_right]. lia. }
    lia.
Qed.

End CanonLaws.

(** ** Further properties of the Rust/WASM adapter *)

Module WasmLaws.
Import Js Wasm WasmFacts.

(** A finished call has the outcome that the settled load dictates. *)
Lemma settled_call_outcome (h : host) (evs : list event) (c : parse_call)
      (r : outcome value) :
  In c (calls (run h evs)) ->
  call_status_of c = Settled r ->
  (exists e, load_failure h = Some e /\ r = Rejected e)
  \/ (load_failure h = None
      /\ exists f, loaded_parse h = Some f /\ r = settle (f (call_xml c))).
Proof.
  intros Hin Hs.
  destruct (run_loads h evs) as [p [_ [Hcalls [Hful Hfail]]]].
  rewrite Forall_forall in Hcalls. specialize (Hcalls c Hin).
  unfold call_ok in Hcalls. rewrite Hs in Hcalls.
  pose proof (final_load_spec h) as Hspec.
  destruct p as [| |e]; [contradiction | |].
  - right. rewrite (Hful eq_refl) in Hspec.
    destruct (load_failure h) eqn:Hlf; [discriminate|].
    split; [reflexivity|].
    destruct (load_success_has_parse h Hlf) as [f Hf].
    exists f. split; [assumption|].
    rewrite Hcalls, parse_finish_loaded. now rewrite Hf.
  - left. rewrite (Hfail e eq_refl) in Hspec.
    destruct (load_failure h) eqn:Hlf; [|discriminate].
    injection Hspec as <-. now exists e.
Qed.

(** *** Why a call of [parse] is rejected *)

(** X7.  A call of [parse] on an adapter built by the constructor is
    rejected for one of two reasons only: the load failed, and the call is
    rejected with the error of the load; or the loaded module's [parse]
    function threw, and the call is rejected with what it threw.  The check
    of lines 62-64 never decides the outcome of a call. *)
Theorem parse_rejection_causes (h : host) (evs : list event)
        (c : parse_call) (e : string) :
  In c (calls (run h evs)) ->
  call_status_of c = Settled (Rejected e) ->
  load_failure h = Some e
  \/ (load_failure h = None
      /\ exists f, loaded_parse h = Some f /\ f (call_xml c) = Throws e).
Proof.
  intros Hin Hs.
  destruct (settled_call_outcome h evs c _ Hin Hs)
    as [[e' [Hlf [= ->]]]|[Hlf [f [Hf Hr]]]].
  - now left.
  - right. split; [assumption|]. exists f. split; [assumption|].
    unfold settle in Hr. destruct (f (call_xml c)); congruence.
Qed.

(** On the host without the module: the one call made is rejected with
    the error of the load. *)
Lemma parse_rejection_causes_witness :
  let c := {| call_xml := "<vmix/>";
              call_status_of :=
                Settled (Rejected
                           (load_error
                              "Cannot find module './vmix_xml_wasm'")) |} in
  In c (calls (run host_without_module
                   [ParseCalled "<vmix/>"; ParseResumed 0]))
  /\ load_failure host_without_module
     = Some (load_error "Cannot find module './vmix_xml_wasm'").
Proof.
  cbv zeta.
  assert (Hin : In {| call_xml := "<vmix/>";
                      call_status_of :=
                        Settled (Rejected
                                   (load_error
                                      "Cannot find module './vmix_xml_wasm'")) |}
                   (calls (run host_without_module
                               [ParseCalled "<vmix/>"; ParseResumed 0])))
    by (vm_compute; left; reflexivity).
  split; [exact Hin|].
  destruct (parse_rejection_causes host_without_module _ _ _ Hin eq_refl)
    as [Hload|[Hnone _]].
  - exact Hload.
  - discriminate Hnone.
Defined.

(** *** The order of events does not matter *)

(** X8.  The outcome of a call of [parse] depends on the host and on the
    document only, not on when the call was made nor on the order in which
    the initializer settles and the calls resume: two finished calls for the
    same document, in any two histories of the adapter, have the same
    outcome. *)
Theorem parse_outcome_schedule_independent (h : host)
        (evs1 evs2 : list event) (c1 c2 : parse_call)
        (r1 r2 : outcome value) :
  In c1 (calls (run h evs1)) ->
  In c2 (calls (run h evs2)) ->
  call_xml c1 = call_xml c2 ->
  call_status_of c1 = Settled r1 ->
  call_status_of c2 = Settled r2 ->
  r1 = r2.
Proof.
  intros Hin1 Hin2 Hxml Hs1 Hs2.
  destruct (settled_call_outcome h evs1 c1 r1 Hin1 Hs1)
    as [[e1 [Hlf1 ->]]|[Hlf1 [f1 [Hf1 ->]]]];
    destruct (settled_call_outcome h evs2 c2 r2 Hin2 Hs2)
      as [[e2 [Hlf2 ->]]|[Hlf2 [f2 [Hf2 ->]]]];
    try congruence.
Qed.

(** Two calls while the load is in flight against one call after it. *)
Lemma parse_outcome_schedule_independent_witness :
  let c := {| call_xml := "<vmix/>";
              call_status_of := Settled (Resolved sample_tree) |} in
  In c (calls (run host_with_dev_module
                   [ParseCalled "<vmix/>"; ParseCalled "<vmix/>";
                    InitSettled 0; ParseResumed 1; ParseResumed 0]))
  /\ In c (calls (run host_with_dev_module
                      [InitSettled 0; ParseCalled "<a/>"; ParseResumed 0;
                       ParseCalled "<vmix/>"]))
  /\ Resolved sample_tree = Resolved sample_tree.
Proof.
  cbv zeta.
  assert (H1 : In {| call_xml := "<vmix/>";
                     call_status_of := Settled (Resolved sample_tree) |}
                  (calls (run host_with_dev_module
                              [ParseCalled "<vmix/>"; ParseCalled "<vmix/>";
                               InitSettled 0; ParseResumed 1;
                               ParseResumed 0])))
    by (vm_compute; left; reflexivity).
  assert (H2 : In {| call_xml := "<vmix/>";
                     call_status_of := Settled (Resolved sample_tree) |}
                  (calls (run host_with_dev_module
                              [InitSettled 0; ParseCalled "<a/>";
                               ParseResumed 0; ParseCalled "<vmix/>"])))
    by (vm_compute; right; left; reflexivity).
  split; [exact H1|]. split; [exact H2|].
  exact (parse_outcome_schedule_independent host_with_dev_module _ _ _ _
           (Resolved sample_tree) (Resolved sample_tree)
           H1 H2 eq_refl eq_refl eq_refl).
Defined.

(** *** Once the module is loaded *)

Lemma step_keeps_null (a : adapter) (ev : event) :
  loadPromise a = None -> loadPromise (step a ev) = None.
Proof.
  intros Hn. destruct ev as [xml|q|c]; cbn [step].
  - unfold parse_begin. now rewrite Hn.
  - destruct (nth_error (loads a) q) as [[| |?]|]; assumption.
  - unfold parse_resume.
    destruct (nth_error (calls a) c) as [[xml [q|r]]|]; try assumption.
    destruct (nth_error (loads a) q) as [[| |?]|]; try assumption.
    reflexivity.
Qed.

Lemma run_app (h : host) (evs more : list event) :
  run h (evs ++ more) = fold_left step more (run h evs).
Proof. unfold run. now rewrite fold_left_app. Qed.

(** X10.  Once [this.loadPromise] has been set to null it stays null, and
    from then on a call of [parse] does not suspend: it is finished when it
    returns, with the result of the loaded module's [parse] function. *)
Theorem parse_without_wait (h : host) (evs more : list event)
        (xml : string) :
  loadPromise (run h evs) = None ->
  loadPromise (run h (evs ++ more)) = None
  /\ exists f,
      loaded_parse h = Some f
      /\ calls (run h (evs ++ more ++ [ParseCalled xml]))
         = calls (run h (evs ++ more))
           ++ [{| call_xml := xml;
                  call_status_of := Settled (settle (f xml)) |}].
Proof.
  intros Hn.
  assert (Hmore : loadPromise (run h (evs ++ more)) = None).
  { rewrite run_app. revert Hn. generalize (run h evs) as a.
    induction more as [|ev rest IH]; intros a Ha; [exact Ha|].
    cbn [fold_left]. apply IH. now apply step_keeps_null. }
  split; [exact Hmore|].
  destruct (invariant_run h (evs ++ more))
    as (Hw & _ & p & Hl & Hlp & _ & Hp).
  destruct Hlp as [Hlp|[_ ->]]; [congruence|].
  destruct Hp as [[Hp _]|[_ Hp]]; [discriminate|].
  pose proof (final_load_spec h) as Hspec. rewrite <- Hp in Hspec.
  destruct (load_failure h) eqn:Hlf; [discriminate|].
  destruct (load_success_has_parse h Hlf) as [f Hf].
  exists f. split; [assumption|].
  rewrite app_assoc, run_snoc. cbn [step]. unfold parse_begin.
  rewrite Hmore. cbn [calls set_calls]. do 3 f_equal.
  rewrite (parse_finish_same_module _ (constructor h) xml Hw).
  rewrite parse_finish_loaded. now rewrite Hf.
Qed.

(** After the load and one resumed call, a further call finishes at once. *)
Lemma parse_without_wait_witness :
  loadPromise (run host_with_dev_module
                   [ParseCalled "<vmix/>"; InitSettled 0; ParseResumed 0])
  = None
  /\ map call_status_of
       (calls (run host_with_dev_module
                   ([ParseCalled "<vmix/>"; InitSettled 0; ParseResumed 0]
                    ++ [] ++ [ParseCalled "<vmix/>"])))
     = [Settled (Resolved sample_tree); Settled (Resolved sample_tree)].
Proof.
  split; [reflexivity|].
  destruct (parse_without_wait host_with_dev_module
              [ParseCalled "<vmix/>"; InitSettled 0; ParseResumed 0] []
              "<vmix/>" eq_refl) as [_ [f [Hf Hcalls]]].
  rewrite Hcalls. injection Hf as <-. reflexivity.
Defined.

(** *** The error of a failed probing *)

(** X11.  When [require] throws at all three locations, the load fails
    while the constructor runs, and its error carries the message of the
    last location only, the sibling module: the errors of the production
    and of the development location are dropped. *)
Theorem load_error_of_last_location (h : host) (e1 e2 e3 : string) :
  require h (production_path h) = Throws e1 ->
  require h (development_path h) = Throws e2 ->
  require h sibling_path = Throws e3 ->
  loads (constructor h) = [Failed (load_error e3)]
  /\ wasm (constructor h) = None
  /\ probes (constructor h) = candidates h.
Proof.
  intros R1 R2 R3.
  unfold constructor, loadWasm, loadWasm_run. cbn [wasm fresh].
  rewrite probe_fresh, R1, R2, R3. repeat split.
Qed.

(** On the host without the module. *)
Lemma load_error_of_last_location_witness :
  require host_without_module (production_path host_without_module)
  = not_found "/opt/companion/dist/xml/../bench/wasm/pkg/vmix_xml.js"
  /\ loads (constructor host_without_module)
     = [Failed (load_error "Cannot find module './vmix_xml_wasm'")].
Proof.
  split; [reflexivity|].
  exact (proj1 (load_error_of_last_location host_without_module _ _ _
                  eq_refl eq_refl eq_refl)).
Defined.

(** *** No call stays suspended *)

Lemma nth_error_update_nth_other {A : Type} (n m : nat) (x : A)
      (l : list A) :
  n <> m -> nth_error (update_nth n x l) m = nth_error l m.
Proof.
  revert n m. induction l as [|y rest IH]; intros [|n] [|m] Hne;
    cbn; try reflexivity; try congruence.
  apply IH. congruence.
Qed.

Lemma length_update_nth {A : Type} (n : nat) (x : A) (l : list A) :
  List.length (update_nth n x l) = List.length l.
Proof.
  revert n. induction l as [|y rest IH]; intros [|n]; cbn;
    try reflexivity. now rewrite IH.
Qed.

Lemma map_update_nth {A B : Type} (f : A -> B) (n : nat) (x y : A)
      (l : list A) :
  nth_error l n = Some y -> f x = f y ->
  map f (update_nth n x l) = map f l.
Proof.
  revert n. induction l as [|z rest IH]; intros [|n]; cbn;
    try discriminate.
  - intros [= ->] ->. reflexivity.
  - intros Hn Hf. f_equal. now apply IH.
Qed.

(** Resuming a call or settling the initializer neither adds nor drops a
    call, and never touches a finished call. *)
Lemma step_keeps_calls (a : adapter) (ev : event) :
  parse_called ev = false ->
  map call_xml (calls (step a ev)) = map call_xml (calls a).
Proof.
  intros Hev. destruct ev as [xml|q|c]; [discriminate| |]; cbn [step].
  - destruct (nth_error (loads a) q) as [[| |?]|]; reflexivity.
  - unfold parse_resume.
    destruct (nth_error (calls a) c) as [[xml [q|r]]|] eqn:Hc;
      try reflexivity.
    destruct (nth_error (loads a) q) as [[| |?]|]; try reflexivity;
      cbn [calls set_calls set_loadPromise];
      now apply map_update_nth with (y := {| call_xml := xml;
                                             call_status_of := Awaiting q |}).
Qed.

Lemma step_keeps_settled (a : adapter) (ev : event) (j : nat)
      (c : parse_call) :
  nth_error (calls a) j = Some c -> is_settled c = true ->
  nth_error (calls (step a ev)) j = Some c.
Proof.
  intros Hj Hs. destruct ev as [xml|q|k]; cbn [step].
  - unfold parse_begin.
    destruct (loadPromise a); cbn [calls set_calls];
      rewrite nth_error_app1; try assumption;
      apply nth_error_Some; congruence.
  - destruct (nth_error (loads a) q) as [[| |?]|]; assumption.
  - unfold parse_resume.
    destruct (nth_error (calls a) k) as [[xml [q|r]]|] eqn:Hk;
      try assumption.
    assert (Hne : k <> j).
    { intros ->. rewrite Hj in Hk. injection Hk as ->. discriminate Hs. }
    destruct (nth_error (loads a) q) as [[| |?]|]; try assumption;
      cbn [calls set_calls set_loadPromise];
      now rewrite nth_error_update_nth_other.
Qed.

Lemma resume_all_succ (k : nat) :
  resume_all (S k) = resume_all k ++ [ParseResumed k].
Proof. unfold resume_all. now rewrite seq_S, map_app. Qed.

(** Once the initializer has settled, the load is settled for good. *)
Lemma load_settled_after_init (h : host) (evs more : list event) :
  exists p, loads (run h (evs ++ InitSettled 0 :: more)) = [p]
            /\ p <> Pending.
Proof.
  induction more as [|ev rest IH] using rev_ind.
  - destruct (run_loads h (evs ++ [InitSettled 0])) as [p' [Hl' _]].
    exists p'. split; [assumption|]. intros ->.
    rewrite run_snoc in Hl'. cbn [step] in Hl'.
    destruct (run_loads h evs) as [p [Hl _]].
    rewrite Hl in Hl'. cbn [nth_error] in Hl'.
    destruct p; cbn in Hl'; try congruence.
    injection Hl' as Hl'. now apply loadWasm_resume_settled in Hl'.
  - destruct IH as [p [Hl Hp]]. exists p. split; [|assumption].
    change (evs ++ InitSettled 0 :: rest ++ [ev])
      with (evs ++ (InitSettled 0 :: rest) ++ [ev]).
    rewrite app_assoc, run_snoc.
    destruct ev as [xml|q|c]; cbn [step].
    + unfold parse_begin. now destruct (loadPromise _).
    + rewrite Hl. destruct q as [|[|q]]; cbn [nth_error]; try assumption.
      destruct p; [congruence | assumption | assumption].
    + unfold parse_resume.
      destruct (nth_error (calls _) c) as [[xml [q|r]]|]; try assumption.
      destruct (nth_error (loads _) q) as [[| |?]|]; assumption.
Qed.

Lemma resumed_calls_settled (h : host) (evs : list event) (k : nat) :
  let a := run h (evs ++ InitSettled 0 :: resume_all k) in
  map call_xml (calls a) = map call_xml (calls (run h evs))
  /\ forall j c, j < k -> nth_error (calls a) j = Some c ->
                 is_settled c = true.
Proof.
  cbv zeta. induction k as [|k [IHxml IHset]].
  - split; [|intros j c Hj; lia].
    change (resume_all 0) with (@nil event).
    rewrite run_snoc. now apply step_keeps_calls.
  - rewrite resume_all_succ.
    change (evs ++ InitSettled 0 :: resume_all k ++ [ParseResumed k])
      with (evs ++ (InitSettled 0 :: resume_all k) ++ [ParseResumed k]).
    rewrite app_assoc, run_snoc.
    set (E := evs ++ InitSettled 0 :: resume_all k) in *.
    split.
    + rewrite step_keeps_calls by reflexivity. exact IHxml.
    + intros j c Hj Hc.
      destruct (nth_error (calls (run h E)) j) as [c0|] eqn:Hc0.
      2:{ apply nth_error_None in Hc0.
          assert (Hlen : List.length (calls (step (run h E) (ParseResumed k)))
                         = List.length (calls (run h E))).
          { rewrite <- (length_map call_xml),
              (step_keeps_calls _ (ParseResumed k) eq_refl), length_map.
            reflexivity. }
          assert (j < List.length (calls (step (run h E) (ParseResumed k))))
            by (apply nth_error_Some; congruence).
          lia. }
      destruct (is_settled c0) eqn:Hs0.
      * rewrite (step_keeps_settled _ (ParseResumed k) j c0 Hc0 Hs0) in Hc.
        now injection Hc as <-.
      * assert (j = k).
        { destruct (Nat.eq_dec j k); [assumption|].
          assert (j < k) by lia.
          rewrite (IHset j c0) in Hs0; [discriminate | lia | assumption]. }
        subst j. destruct c0 as [xml [q|r]]; [|discriminate].
        pose proof (resume_settles h E k xml q Hc0) as Hr.
        destruct (load_settled_after_init h evs (resume_all k))
          as [p [Hl Hp]].
        fold E in Hl. rewrite Hl in Hr. cbn [nth_error] in Hr.
        destruct p as [| |e]; [congruence | |];
          rewrite Hr in Hc; now injection Hc as <-.
Qed.

(** X9.  No call of [parse] stays suspended: from any moment in the life of
    the adapter, once the initializer has settled and each call made so far
    has resumed, every call is finished, and the calls are still the same
    ones, in the same order. *)
Theorem every_call_can_finish (h : host) (evs : list event) :
  let n := List.length (calls (run h evs)) in
  let a := run h (evs ++ InitSettled 0 :: resume_all n) in
  forallb is_settled (calls a) = true
  /\ map call_xml (calls a) = map call_xml (calls (run h evs)).
Proof.
  cbv zeta.
  destruct (resumed_calls_settled h evs (List.length (calls (run h evs))))
    as [Hxml Hset].
  split; [|exact Hxml].
  apply forallb_forall. intros c Hin.
  apply In_nth_error in Hin. destruct Hin as [j Hj].
  apply (Hset j c); [|assumption].
  assert (Hlt : j < List.length
                      (calls (run h (evs ++ InitSettled 0
                                       :: resume_all
                                            (List.length
                                               (calls (run h evs)))))))
    by (apply nth_error_Some; congruence).
  rewrite <- (length_map call_xml), Hxml, length_map in Hlt. exact Hlt.
Qed.

End WasmLaws.

(** ** The benchmark's test of the Rust/WASM adapter *)

Module BenchLaws.
Import Js Wasm WasmFacts WasmLaws Bench.

Lemma substring_prefix (s : string) (m : nat) :
  m <= String.length s ->
  String.length (String.substring 0 m s) = m
  /\ exists rest, s = (String.substring 0 m s ++ rest)%string.
Proof.
  revert m. induction s as [|c s IH]; intros [|m] Hm; cbn in *.
  - split; [reflexivity | now exists ""].
  - lia.
  - split; [reflexivity | now exists (String c s)].
  - destruct (IH m) as [Hlen [rest Hrest]]; [lia|].
    split; [now rewrite Hlen|]. exists rest. now rewrite <- Hrest.
Qed.

Lemma substring_whole (s : string) :
  String.substring 0 (String.length s) s = s.
Proof.
  induction s as [|c s IH]; cbn; [reflexivity | now rewrite IH].
Qed.

(** The awaited test call returns, with the outcome that the host
    dictates. *)
Lemma awaited_parse_returns (h : host) (x : string) :
  exists r,
    awaited_parse h x = Some r
    /\ ((exists e, load_failure h = Some e /\ r = Rejected e)
        \/ (load_failure h = None
            /\ exists f, loaded_parse h = Some f /\ r = settle (f x))).
Proof.
  unfold awaited_parse.
  destruct (constructor_basics h) as [p0 [_ [Hlp Hc0]]].
  assert (Hcalls : calls (run h [ParseCalled x])
                   = [{| call_xml := x; call_status_of := Awaiting 0 |}]).
  { unfold run. cbn [fold_left step]. unfold parse_begin.
    rewrite Hlp. cbn [calls set_calls]. now rewrite Hc0. }
  pose proof (resumed_calls_settled h [ParseCalled x] 1) as [Hxml Hset].
  rewrite Hcalls in Hxml.
  change ([ParseCalled x] ++ InitSettled 0 :: resume_all 1)
    with [ParseCalled x; InitSettled 0; ParseResumed 0] in *.
  set (a := run h [ParseCalled x; InitSettled 0; ParseResumed 0]) in *.
  destruct (calls a) as [|c [|c' rest]] eqn:Ha; try discriminate.
  cbn in Hxml. injection Hxml as Hx.
  pose proof (Hset 0 c (Nat.lt_0_1) eq_refl) as Hs.
  unfold is_settled in Hs.
  destruct (call_status_of c) as [q|r] eqn:Hst; [discriminate|].
  exists r. split; [reflexivity|].
  assert (Hin : In c (calls (run h [ParseCalled x; InitSettled 0;
                                    ParseResumed 0])))
    by (fold a; rewrite Ha; now left).
  rewrite <- Hx. exact (settled_call_outcome h _ c r Hin Hst).
Qed.

(** X13.  The benchmark tries the adapter on the first 1000 code units of
    the document, the whole document when it is no longer.  The block
    always pushes an entry.  When the load of the adapter fails, or when the
    module's [parse] function throws on that test document, the one entry
    pushed is a skipped one whose message is the error behind the prefix
    "Rust WASM test parse failed: "; the measurement is not run, whether or
    not the module parses the whole document. *)
Theorem rust_wasm_test_decides {R : Type} (h : host)
        (runBenchmark : string -> outcome R)
        (formatResult : R -> completion string) (xml : string) :
  (String.length (test_document xml) = Nat.min 1000 (String.length xml)
   /\ (exists rest, xml = (test_document xml ++ rest)%string)
   /\ (String.length xml <= 1000 -> test_document xml = xml))
  /\ (exists entries,
        rust_wasm_entries h runBenchmark formatResult xml = Some entries
        /\ entries <> [])
  /\ (forall e, load_failure h = Some e ->
        rust_wasm_entries h runBenchmark formatResult xml
        = Some [SkippedEntry (test_failed e)])
  /\ (forall f e,
        load_failure h = None -> loaded_parse h = Some f ->
        f (test_document xml) = Throws e ->
        rust_wasm_entries h runBenchmark formatResult xml
        = Some [SkippedEntry (test_failed e)]).
Proof.
  split.
  { unfold test_document.
    destruct (substring_prefix xml (Nat.min 1000 (String.length xml)))
      as [Hlen Hrest]; [lia|].
    split; [exact Hlen|]. split; [exact Hrest|].
    intros Hshort. rewrite Nat.min_r by exact Hshort.
    apply substring_whole. }
  unfold rust_wasm_entries.
  destruct (awaited_parse_returns h (test_document xml))
    as [r [-> Hr]].
  split.
  { destruct r as [v|e].
    - destruct (runBenchmark xml) as [b|e].
      + destruct (formatResult b); eexists; split; try reflexivity;
          discriminate.
      + eexists. split; [reflexivity | discriminate].
    - eexists. split; [reflexivity | discriminate]. }
  split.
  - intros e He.
    destruct Hr as [[e' [He' ->]]|[Hnone _]]; [|congruence].
    rewrite He in He'. now injection He' as <-.
  - intros f e Hnone Hf Hthrow.
    destruct Hr as [[e' [He' _]]|[_ [f' [Hf' ->]]]]; [congruence|].
    rewrite Hf in Hf'. injection Hf' as <-.
    rewrite Hthrow. reflexivity.
Qed.

(** A module that parses the whole long document, but not its first 1000
    code units, is skipped. *)
Example whole_only_module_skipped :
  loaded_parse host_with_whole_only_module
  = mod_parse whole_only_module
  /\ settle (match mod_parse whole_only_module with
             | Some f => f long_document
             | None => Throws ""
             end) = Resolved sample_tree
  /\ rust_wasm_entries (R := nat) host_with_whole_only_module
       (fun _ => Resolved 0) (fun _ => Returns "") long_document
     = Some [SkippedEntry
               (test_failed "unexpected end of document")].
Proof. vm_compute. repeat split. Qed.

End BenchLaws.

(** ** What the normalizing adapter hands over *)

Module FxpLaws.
Import Js FastXmlParserLib Canon CanonFacts CanonLaws.

(** X12.  Whatever the fast-xml-parser library does, the adapter of
    [fxpAdapter.ts] adds no failure of its own and hands over a normalized
    tree: its promise is rejected exactly when the library throws, with the
    library's message; otherwise it resolves with a tree that is not a bare
    scalar, is canonical, keeps text alone in its arrays and is [null] or
    [undefined] only when the library returned that. *)
Theorem normalizing_adapter_guarantees (lib_parse : parse_method)
        (xml : string) :
  match Fxp.parse lib_parse Fxp.constructor xml with
  | Resolved v =>
      is_scalar v = false
      /\ is_canonical v = true
      /\ text_alone v = true
      /\ exists t, lib_parse (Fxp.parser Fxp.constructor) xml = Returns t
                   /\ is_null v = is_null t
                   /\ is_undefined v = is_undefined t
  | Rejected e => lib_parse (Fxp.parser Fxp.constructor) xml = Throws e
  end.
Proof.
  unfold Fxp.parse.
  destruct (lib_parse (Fxp.parser Fxp.constructor) xml) as [t|e];
    [|reflexivity].
  split; [apply normalize_not_scalar|].
  split; [apply output_canonical|].
  split; [apply output_text_alone|].
  exists t. split; [reflexivity|]. destruct t; split; reflexivity.
Qed.

End FxpLaws.
